(** * Post-processing reconstruction: kinematics.py

    A shallow embedding of the three post-processors of
    [analysis/post_processing/reconstruction/kinematics.py]:

    - [ParticleSemanticsProcessor]  (enforce_particle_semantics)
    - [ParticlePropertiesProcessor] (adjust_particle_properties)
    - [MomentumProcessor]           (reconstruct_momentum)

    The processors are written once, generically in the array dtype, the way
    the Python code is ([dtype=p.pid_scores.dtype]).  Two dtypes are provided:
    IEEE binary64 through Rocq's primitive floats, the dtype the code runs
    at, and the exact rationals [Qc], the arithmetic without rounding.  What
    depends on the rounding is stated for any dtype that tells which rational
    a scalar stands for, and follows the operations the code makes one by
    one.

    numpy arrays live in a store and particles hold references to them, so
    that rebinding an attribute ([p.pid_scores = pid_scores]) and updating an
    array in place ([scores *= c]) are different things. *)

From Stdlib Require Import ZArith QArith Qcanon Lqa String PrimFloat SpecFloat FloatOps FloatAxioms.
From stdpp Require Import base option list gmap.

Set Warnings "-inexact-float".
Set Default Proof Using "Type".

Local Open Scope Z_scope.

(** ** Scalars *)

(** The arithmetic the processors use on array elements and on scalars. *)
Class Arith (F : Type) := {
  f0   : F;
  f1   : F;
  fadd : F → F → F;
  fsub : F → F → F;
  fmul : F → F → F;
  fdiv : F → F → F;
  fltb : F → F → bool;
  fleb : F → F → bool;
  feqb : F → F → bool;
}.

(** What the momentum reconstruction needs on top: negative infinity (the
    "unset" mark of [start_dir]) and the square root. *)
Class Floating (F : Type) `{Arith F} := {
  fneg_inf : F;
  fsqrt    : F → F;
}.

(** Python writes [x > y] and [x >= y]. *)
Definition fgtb `{Arith F} (x y : F) : bool := fltb y x.
Definition fgeb `{Arith F} (x y : F) : bool := fleb y x.

#[export] Instance float_Arith : Arith float := {|
  f0 := 0%float;
  f1 := 1%float;
  fadd := PrimFloat.add;
  fsub := PrimFloat.sub;
  fmul := PrimFloat.mul;
  fdiv := PrimFloat.div;
  fltb := PrimFloat.ltb;
  fleb := PrimFloat.leb;
  feqb := PrimFloat.eqb;
|}.

#[export] Instance float_Floating : Floating float := {|
  fneg_inf := neg_infinity;
  fsqrt := PrimFloat.sqrt;
|}.

Definition Qc_ltb (x y : Qc) : bool := bool_decide (x < y)%Qc.
Definition Qc_leb (x y : Qc) : bool := bool_decide (x ≤ y)%Qc.
Definition Qc_eqb (x y : Qc) : bool := bool_decide (x = y).

#[export] Instance Qc_Arith : Arith Qc := {|
  f0 := 0%Qc;
  f1 := 1%Qc;
  fadd := Qcplus;
  fsub := Qcminus;
  fmul := Qcmult;
  fdiv := Qcdiv;
  fltb := Qc_ltb;
  fleb := Qc_leb;
  feqb := Qc_eqb;
|}.

(** ** Exceptions and the state-and-exception monad *)

Inductive exn :=
  | KeyError
  | IndexError
  | ValueError (msg : string)
  | AssertionError (msg : string).

(** A computation on a state [S]: the state it leaves is returned also when
    it raises, as whatever was mutated before the [raise] stays mutated. *)
Definition M (S A : Type) : Type := S → S * (exn + A).

#[export] Instance M_ret {S} : MRet (M S) := λ A a s, (s, inr a).
#[export] Instance M_bind {S} : MBind (M S) := λ A B k m s,
  match m s with
  | (s', inr a) => k a s'
  | (s', inl e) => (s', inl e)
  end.
Definition raise {S A} (e : exn) : M S A := λ s, (s, inl e).
Definition get {S} : M S S := λ s, (s, inr s).
Definition modify {S} (f : S → S) : M S unit := λ s, (f s, inr tt).

(** [d[k]] on a dict. *)
Definition dict_get {S K A} `{Lookup K A D} (d : D) (k : K) : M S A :=
  match d !! k with
  | Some a => mret a
  | None => raise KeyError
  end.

(** ** Arrays *)

Section arrays.
Context {F : Type} `{Arith F}.

(** [np.zeros(n)] *)
Definition np_zeros (n : nat) : list F := replicate n f0.

(** [np.sum(a)], accumulated from zero in index order: the order in which
    numpy adds an array of fewer than eight entries (a longer array it adds
    in blocks, which rounds in another order). *)
Definition np_sum (a : list F) : F := foldl fadd f0 a.

(** [a[i]] for a class index [i]. *)
Definition np_item (a : list F) (i : nat) : exn + F :=
  match a !! i with
  | Some x => inr x
  | None => inl IndexError
  end.

(** [a[idx]] for an index array [idx]: the gathered values, or an
    [IndexError] at the first index that is out of bounds. *)
Fixpoint np_take (a : list F) (idx : list nat) : exn + list F :=
  match idx with
  | [] => inr []
  | i :: idx' =>
      match a !! i with
      | None => inl IndexError
      | Some x =>
          match np_take a idx' with
          | inr xs => inr (x :: xs)
          | inl e => inl e
          end
      end
  end.

(** [a[idx] = vals]: the values are stored one index after the other (the
    last write wins on a repeated index); an index out of bounds raises and
    leaves [a] as it was. *)
Fixpoint np_put_loop (a : list F) (idx : list nat) (vals : list F) : list F :=
  match idx, vals with
  | i :: idx', v :: vals' => np_put_loop (<[i := v]> a) idx' vals'
  | _, _ => a
  end.

Definition np_put (a : list F) (idx : list nat) (vals : list F) : exn + list F :=
  if forallb (λ i, bool_decide (i < length a)%nat) idx
  then inr (np_put_loop a idx vals)
  else inl IndexError.

(** [a /= s] and [a *= c], element by element. *)
Definition np_idiv (a : list F) (s : F) : list F := map (λ x, fdiv x s) a.
Definition np_imul (a : list F) (c : F) : list F := map (λ x, fmul x c) a.

(** [pid_range[pid_range < n]] *)
Definition np_below (idx : list nat) (n : nat) : list nat :=
  filter (λ i, (i < n)%nat) idx.

(** The vector [a] with zero at every index that is not in [allowed]. *)
Definition mask (allowed : list nat) (a : list F) : list F :=
  imap (λ i x, if bool_decide (i ∈ allowed) then x else f0) a.

(** What survives of the sum of [a] under the mask. *)
Definition masked_mass (allowed : list nat) (a : list F) : F :=
  np_sum (mask allowed a).

(** The masked vector divided by its sum. *)
Definition renormalised (allowed : list nat) (a : list F) : list F :=
  np_idiv (mask allowed a) (masked_mass allowed a).
End arrays.

(** ** The array store *)

Definition loc := nat.

(** Array objects, addressed by the order of their creation. *)
Abbreviation Heap F := (list (list F)).

Section store.
Context {F : Type}.

(** The contents of the array at [l] (a reference held by a particle always
    points to an array; an unknown address reads as the empty array). *)
Definition deref (h : Heap F) (l : loc) : list F := default [] (h !! l).

(** A new array object. *)
Definition alloc (h : Heap F) (a : list F) : Heap F * loc := (h ++ [a], length h).

(** In-place update of the array at [l]. *)
Definition store (h : Heap F) (l : loc) (a : list F) : Heap F := <[l := a]> h.
End store.

(** ** Particles, events and the constants of [mlreco.utils.globals] *)

(** The attributes of a particle object that the processors read or write.
    [pid_scores] and [primary_scores] are references to arrays of the store.
    [momentum] is [None] as long as nothing has been assigned to it. *)
Record Particle {F : Type} := mkParticle {
  semantic_type  : Z;
  pid_scores     : loc;
  primary_scores : loc;
  pid            : Z;
  is_primary     : bool;
  is_contained   : bool;
  calo_ke        : F;
  csda_ke        : F;
  mcs_ke         : F;
  start_dir      : list F;
  momentum       : option (list F);
}.
Arguments Particle F : clear implicits.
Arguments mkParticle {F}.

Section setters.
Context {F : Type}.
Implicit Type p : Particle F.

Definition set_pid_scores (l : loc) p : Particle F :=
  mkParticle (semantic_type p) l (primary_scores p) (pid p) (is_primary p)
    (is_contained p) (calo_ke p) (csda_ke p) (mcs_ke p) (start_dir p) (momentum p).
Definition set_primary_scores (l : loc) p : Particle F :=
  mkParticle (semantic_type p) (pid_scores p) l (pid p) (is_primary p)
    (is_contained p) (calo_ke p) (csda_ke p) (mcs_ke p) (start_dir p) (momentum p).
Definition set_pid (k : Z) p : Particle F :=
  mkParticle (semantic_type p) (pid_scores p) (primary_scores p) k (is_primary p)
    (is_contained p) (calo_ke p) (csda_ke p) (mcs_ke p) (start_dir p) (momentum p).
Definition set_is_primary (b : bool) p : Particle F :=
  mkParticle (semantic_type p) (pid_scores p) (primary_scores p) (pid p) b
    (is_contained p) (calo_ke p) (csda_ke p) (mcs_ke p) (start_dir p) (momentum p).
Definition set_momentum (m : list F) p : Particle F :=
  mkParticle (semantic_type p) (pid_scores p) (primary_scores p) (pid p) (is_primary p)
    (is_contained p) (calo_ke p) (csda_ke p) (mcs_ke p) (start_dir p) (Some m).
End setters.

(** The four names imported from [mlreco.utils.globals].  The module is not
    part of the sources at hand, so the processors take its constants as a
    parameter: the shape label of tracks, the rest mass of each supported PID,
    and the PID and primary labels each shape allows. *)
Record Globals {F : Type} := mkGlobals {
  TRACK_SHP      : Z;
  PID_MASSES     : gmap Z F;
  SHP_TO_PID     : gmap Z (list nat);
  SHP_TO_PRIMARY : gmap Z (list nat);
}.
Arguments Globals F : clear implicits.
Arguments mkGlobals {F}.

(** [result_dict]: the particle objects of one entry, in order, and its
    interaction objects. *)
Record Event {F I : Type} := mkEvent {
  particles    : list (Particle F);
  interactions : list I;
}.
Arguments Event F I : clear implicits.
Arguments mkEvent {F I}.

(** ** Statements on one particle and on the store *)

Section statements.
Context {F : Type}.

(** The state a loop body works on: the current particle [p] and the
    array store. *)
Definition PState : Type := Particle F * Heap F.

Definition get_p : M PState (Particle F) := λ s, (s, inr s.1).
Definition set_p (f : Particle F → Particle F) : M PState unit :=
  modify (prod_map f id).
Definition read (l : loc) : M PState (list F) := λ s, (s, inr (deref s.2 l)).
Definition new (a : list F) : M PState loc :=
  λ s, ((s.1, (alloc s.2 a).1), inr (alloc s.2 a).2).
Definition write (l : loc) (a : list F) : M PState unit :=
  modify (prod_map id (λ h, store h l a)).
Definition try {A} (r : exn + A) : M PState A :=
  match r with
  | inr a => mret a
  | inl e => raise e
  end.

(** [for p in result_dict['particles']: body].  The loop stops at the first
    particle whose body raises; the particles before it keep what the body
    did to them, and so does the one it raised on. *)
Fixpoint for_particles (body : M PState unit) (ps : list (Particle F))
    (h : Heap F) : (list (Particle F) * Heap F) * (exn + unit) :=
  match ps with
  | [] => (([], h), inr tt)
  | p :: ps' =>
      match body (p, h) with
      | ((p', h'), inl e) => ((p' :: ps', h'), inl e)
      | ((p', h'), inr _) =>
          let '((ps'', h''), r) := for_particles body ps' h' in
          ((p' :: ps'', h''), r)
      end
  end.

(** What a loop body tells its [for] loop. *)
Inductive flow := Next | Break.

(** [for x in items: body], with the local variable [acc] that the body
    updates and a [break]. *)
Fixpoint for_in {A L} (items : list A) (acc : L)
    (body : A → L → M PState (flow * L)) : M PState L :=
  match items with
  | [] => mret acc
  | x :: rest =>
      r ← body x acc;
      match r.1 with
      | Break => mret r.2
      | Next => for_in rest r.2 body
      end
  end.
End statements.

(** ** The processors *)

(** Configuration objects, as the constructors store them. *)
Record ParticleSemanticsProcessor := mkSemantics {
  enforce_pid     : bool;
  enforce_primary : bool;
}.

Record ParticlePropertiesProcessor {F : Type} := mkProperties {
  em_pid_thresholds    : list (nat * F);
  track_pid_thresholds : list (nat * F);
  primary_threshold    : option F;
}.
Arguments ParticlePropertiesProcessor F : clear implicits.
Arguments mkProperties {F}.

Record MomentumProcessor := mkMomentum {
  method : string;
}.

Section processors.
Context {F : Type} `{Floating F}.
Context (G : Globals F).
(** [Interaction._update_particle_info], which belongs to the interaction
    class: it recomputes the summaries of an interaction from the current
    state of the particles. *)
Context {I : Type} (update_particle_info : list (Particle F) → Heap F → I → I).

(** *** ParticleSemanticsProcessor *)

(** Lines 55-63: reset the PID scores. *)
Definition reset_pid_scores : M PState unit :=
  p ← get_p;
  pid_range ← dict_get (SHP_TO_PID G) (semantic_type p);
  old ← read (pid_scores p);
  let pid_range := np_below pid_range (length old) in
  pid_scores ← new (np_zeros (length old));
  vals ← try (np_take old pid_range);
  a ← read pid_scores;
  a ← try (np_put a pid_range vals);
  write pid_scores a;;
  a ← read pid_scores;
  write pid_scores (np_idiv a (np_sum a));;
  set_p (set_pid_scores pid_scores).

(** Lines 66-73: reset the primary scores. *)
Definition reset_primary_scores : M PState unit :=
  p ← get_p;
  primary_range ← dict_get (SHP_TO_PRIMARY G) (semantic_type p);
  old ← read (primary_scores p);
  primary_scores ← new (np_zeros (length old));
  vals ← try (np_take old primary_range);
  a ← read primary_scores;
  a ← try (np_put a primary_range vals);
  write primary_scores a;;
  a ← read primary_scores;
  write primary_scores (np_idiv a (np_sum a));;
  set_p (set_primary_scores primary_scores).

Definition semantics_body (self : ParticleSemanticsProcessor) : M PState unit :=
  (if enforce_pid self then reset_pid_scores else mret tt);;
  (if enforce_primary self then reset_primary_scores else mret tt).

(** The second loop of [process]: [ia._update_particle_info()] on every
    interaction, reached only when the first loop did not raise. *)
Definition update_interactions (r : (list (Particle F) * Heap F) * (exn + unit))
    (ias : list I) : (Event F I * Heap F) * (exn + unit) :=
  match r with
  | ((ps, h), inl e) => ((mkEvent ps ias, h), inl e)
  | ((ps, h), inr _) => ((mkEvent ps (map (update_particle_info ps h) ias), h), inr tt)
  end.

Definition semantics_process (self : ParticleSemanticsProcessor)
    : M (Event F I * Heap F) unit :=
  λ s, update_interactions
         (for_particles (semantics_body self) (particles s.1) s.2)
         (interactions s.1).

(** *** ParticlePropertiesProcessor *)

Definition no_threshold_msg : string :=
  "Specify one of `em_pid_thresholds`, `track_pid_thresholds` or `primary_threshold` for this function to do anything.".

Definition is_None {A} (o : option A) : bool :=
  match o with
  | None => true
  | Some _ => false
  end.

Definition properties_init (em track : list (nat * F)) (primary : option F)
    : exn + ParticlePropertiesProcessor F :=
  if bool_decide (length em = 0%nat) && bool_decide (length track = 0%nat)
     && is_None primary
  then inl (ValueError no_threshold_msg)
  else inr (mkProperties em track primary).

Definition coverage_msg : string :=
  "Must specify a PID threshold for all or no particle type".

(** Lines 140-146: one turn of the loop over [pid_thresholds.items()], on
    the array [scores] and the local variable [assigned]. *)
Definition threshold_step (scores : loc) (kv : nat * F) (assigned : bool)
    : M PState (flow * bool) :=
  a ← read scores;
  sk ← try (np_item a kv.1);
  if fgeb sk kv.2 then
    set_p (set_pid (Z.of_nat kv.1));;
    mret (Break, true)
  else
    a ← read scores;
    sk ← try (np_item a kv.1);
    write scores (np_imul a (fdiv f1 (fsub f1 sk)));;
    mret (Next, assigned).

(** Lines 135-149: adjust the particle ID. *)
Definition adjust_pid (self : ParticlePropertiesProcessor F) : M PState unit :=
  p ← get_p;
  let pid_thresholds :=
    if bool_decide (semantic_type p = TRACK_SHP G)
    then track_pid_thresholds self else em_pid_thresholds self in
  if bool_decide (length pid_thresholds ≠ 0%nat) then
    src ← read (pid_scores p);
    scores ← new src;
    assigned ← for_in pid_thresholds false (threshold_step scores);
    if assigned : bool then mret tt else raise (AssertionError coverage_msg)
  else mret tt.

(** Lines 152-153: adjust the primary ID. *)
Definition adjust_primary (self : ParticlePropertiesProcessor F) : M PState unit :=
  match primary_threshold self with
  | Some t =>
      p ← get_p;
      a ← read (primary_scores p);
      s1 ← try (np_item a 1);
      set_p (set_is_primary (fgeb s1 t))
  | None => mret tt
  end.

Definition properties_body (self : ParticlePropertiesProcessor F) : M PState unit :=
  adjust_pid self;;
  adjust_primary self.

Definition properties_process (self : ParticlePropertiesProcessor F)
    : M (Event F I * Heap F) unit :=
  λ s, update_interactions
         (for_particles (properties_body self) (particles s.1) s.2)
         (interactions s.1).

(** *** MomentumProcessor *)

Definition bad_method_msg : string :=
  "Momentum reconstruction method not recognized: {method}".

Definition momentum_init (method : string) : exn + MomentumProcessor :=
  if bool_decide (method ∈ ["best"; "csda"; "calo"; "mcs"]%string)
  then inr (mkMomentum method)
  else inl (ValueError bad_method_msg).

Definition bad_pid_msg : string :=
  "PID not supported, cannot reconstruct momentum".
Definition no_ke_msg : string :=
  "Must fill the `*_ke` attributes to fill the momentum".
Definition no_dir_msg : string :=
  "Must fill the `start_dir` attribute to fill the momentum".

(** Lines 211-224: get the reconstructed kinetic energy. *)
Definition resolve_ke (self : MomentumProcessor) (p : Particle F) : F :=
  if bool_decide (semantic_type p ≠ TRACK_SHP G) then
    calo_ke p
  else if (String.eqb (method self) "csda" || is_contained p)
          && fgtb (csda_ke p) f0 then
    csda_ke p
  else if (String.eqb (method self) "mcs" || negb (is_contained p))
          && fgtb (mcs_ke p) f0 then
    mcs_ke p
  else
    calo_ke p.

(** Line 238: [np.sqrt((ke+mass)**2-mass**2)], the square written as a
    product ([**2] goes through [pow], whose result can differ from the
    product in the last place, and which raises an [OverflowError] on Python
    floats where the product is infinite). *)
Definition momentum_norm (ke mass : F) : F :=
  fsqrt (fsub (fmul (fadd ke mass) (fadd ke mass)) (fmul mass mass)).

(** Lines 203-241: the body of the loop; [continue] leaves it at once. *)
Definition momentum_body (self : MomentumProcessor) : M PState unit :=
  p ← get_p;
  if bool_decide (pid p < 0) then mret tt
  else if bool_decide (PID_MASSES G !! pid p = None) then
    raise (ValueError bad_pid_msg)
  else
    let ke := resolve_ke self p in
    if fltb ke f0 then raise (ValueError no_ke_msg)
    else
      let direction := start_dir p in
      d0 ← try (np_item direction 0);
      if feqb d0 fneg_inf then raise (ValueError no_dir_msg)
      else
        mass ← dict_get (PID_MASSES G) (pid p);
        let momentum := momentum_norm ke mass in
        set_p (set_momentum (map (fmul momentum) direction)).

Definition momentum_process (self : MomentumProcessor)
    : M (Event F I * Heap F) unit :=
  λ s, match for_particles (momentum_body self) (particles s.1) s.2 with
       | ((ps, h), r) => ((mkEvent ps (interactions s.1), h), r)
       end.
End processors.

(** ** A concrete set of constants and concrete events *)

(** Concrete values for the constants, used to run the processors: shapes
    shower 0, track 1, Michel 2 and delta 3; PIDs photon 0, electron 1,
    muon 2, pion 3, proton 4 and kaon 5.  Showers allow the photon and the
    electron, tracks the other four, Michel and delta electrons only the
    electron and only the secondary label. *)
Module Sample.
Definition SHOWR_SHP : Z := 0.
Definition TRACK_SHP : Z := 1.
Definition MICHL_SHP : Z := 2.
Definition DELTA_SHP : Z := 3.

Definition PHOT_PID : nat := 0.
Definition ELEC_PID : nat := 1.
Definition MUON_PID : nat := 2.
Definition PION_PID : nat := 3.
Definition PROT_PID : nat := 4.
Definition KAON_PID : nat := 5.

Definition shp_to_pid : gmap Z (list nat) :=
  list_to_map [(SHOWR_SHP, [PHOT_PID; ELEC_PID]);
               (TRACK_SHP, [MUON_PID; PION_PID; PROT_PID; KAON_PID]);
               (DELTA_SHP, [ELEC_PID]);
               (MICHL_SHP, [ELEC_PID])].

Definition shp_to_primary : gmap Z (list nat) :=
  list_to_map [(SHOWR_SHP, [0; 1]%nat); (TRACK_SHP, [0; 1]%nat);
               (DELTA_SHP, [0%nat]); (MICHL_SHP, [0%nat])].

Definition float_globals : Globals float :=
  mkGlobals TRACK_SHP
    (list_to_map [(0, 0%float); (1, 0.511998%float); (2, 105.658%float);
                  (3, 139.570%float); (4, 938.272%float); (5, 493.677%float)])
    shp_to_pid shp_to_primary.

(** Events without interactions. *)
Definition no_update {F} (ps : list (Particle F)) (h : Heap F) (ia : unit) : unit := ia.

Section events.
Local Open Scope float_scope.

(** A contained muon track with all three estimates set. *)
Definition contained_muon (calo csda mcs : float) : Particle float :=
  mkParticle TRACK_SHP 0%nat 1%nat 2 true true calo csda mcs [0; 0; 1] None.

(** A shower electron. *)
Definition shower_electron (calo : float) : Particle float :=
  mkParticle SHOWR_SHP 0%nat 1%nat 1 true true calo (-1) (-1) [0; 0; 1] None.

(** The thresholds of the specification's example, in that order. *)
Definition example_thresholds : ParticlePropertiesProcessor float :=
  mkProperties [] [(MUON_PID, 0.8); (PION_PID, 0.5); (PROT_PID, 0)] None.

(** Thresholds under which the pion only passes once its score is rescaled:
    0.6 is below 0.7, and 0.6 / 0.7 is above. *)
Definition rescaling_thresholds : ParticlePropertiesProcessor float :=
  mkProperties [] [(MUON_PID, 0.8); (PION_PID, 0.7); (PROT_PID, 0)] None.

(** Thresholds without a last entry at zero. *)
Definition uncovered_thresholds : ParticlePropertiesProcessor float :=
  mkProperties [] [(MUON_PID, 0.8); (PION_PID, 0.9)] None.

(** A track whose PID is yet to be set; its scores are the array at 0, its
    primary scores the array at 1. *)
Definition example_track : Particle float :=
  mkParticle TRACK_SHP 0%nat 1%nat (-1) false true 45 50 (-1) [0; 0; 1] None.

(** Muon 0.3, pion 0.6, proton 0.1. *)
Definition example_store : Heap float := [[0; 0; 0.3; 0.6; 0.1]; [0.2; 0.8]].

(** A track whose PID scores, the array at 0, have all their weight on the
    photon and the electron, which a track does not allow. *)
Definition shower_like_store : Heap float :=
  [[0.5; 0.5; 0; 0; 0]; [0.2; 0.8]]%float.

(** A shower whose array of primary scores has a single entry. *)
Definition short_primary_shower : Particle float :=
  mkParticle SHOWR_SHP 0%nat 1%nat (-1) false true 45 (-1) (-1) [0; 0; 1]%float None.
Definition short_primary_store : Heap float := [[0.5; 0.5]; [1]]%float.

(** A track with three PID scores only: photon, electron and muon. *)
Definition short_pid_store : Heap float := [[0.25; 0.25; 0.5]; [0.25; 0.75]]%float.

(** A particle of a shape the tables do not have. *)
Definition low_energy_particle : Particle float :=
  mkParticle 4 0%nat 1%nat (-1) false true 45 (-1) (-1) [0; 0; 1] None.

(** A muon track and an electron without a determined PID. *)
Definition momentum_event : Event float unit :=
  mkEvent [contained_muon 45 50 (-1); set_pid (-1) (shower_electron 1)] [].

(** A primary threshold only. *)
Definition primary_only (t : float) : ParticlePropertiesProcessor float :=
  mkProperties [] [] (Some t).

End events.
End Sample.

(** ** Notions the statements below are about *)

Section notions.
Context {F : Type} `{Floating F}.
Context (G : Globals F).

(** The choice of the kinetic energy in the words of the specification
    (section 4.3, step 3), to be compared with [resolve_ke]: the containment
    of the particle only counts under the method "best". *)
Definition spec_resolve_ke (self : MomentumProcessor) (p : Particle F) : F :=
  if bool_decide (semantic_type p ≠ TRACK_SHP G) then
    calo_ke p
  else if (String.eqb (method self) "csda"
           || String.eqb (method self) "best" && is_contained p)
          && fgtb (csda_ke p) f0 then
    csda_ke p
  else if (String.eqb (method self) "mcs"
           || String.eqb (method self) "best" && negb (is_contained p))
          && fgtb (mcs_ke p) f0 then
    mcs_ke p
  else
    calo_ke p.

(** The particle has a PID that is determined and has a mass, its resolved
    kinetic energy is not below zero, and its direction is set. *)
Definition momentum_ready (self : MomentumProcessor) (p : Particle F) : Prop :=
  0 ≤ pid p ∧
  is_Some (PID_MASSES G !! pid p) ∧
  fltb (resolve_ke G self p) f0 = false ∧
  ∃ d0, start_dir p !! 0%nat = Some d0 ∧ feqb d0 fneg_inf = false.

(** The particle with its momentum assigned the way line 241 does. *)
Definition with_momentum (self : MomentumProcessor) (p : Particle F) : Particle F :=
  match PID_MASSES G !! pid p with
  | Some mass =>
      set_momentum
        (map (fmul (momentum_norm (resolve_ke G self p) mass)) (start_dir p)) p
  | None => p
  end.
(** What [MomentumProcessor.process] does to one particle when it does not
    raise. *)
Definition momentum_update (self : MomentumProcessor) (p : Particle F) : Particle F :=
  if bool_decide (pid p < 0) then p else with_momentum self p.

(** The threshold walk in the words of the specification (section 4.2), on a
    plain vector of scores: the entries are taken in order; an entry whose
    class has a score at or above its threshold ends the walk with that
    class; otherwise all scores are multiplied by [1 / (1 - score)], with the
    score of the class just rejected, and the walk goes on.  Returned are the
    scores as the walk left them and its outcome: the class assigned, [None]
    when the mapping is exhausted, or the [IndexError] of a class the vector
    does not have. *)
Fixpoint spec_walk (thresholds : list (nat * F)) (scores : list F)
    : list F * (exn + option nat) :=
  match thresholds with
  | [] => (scores, inr None)
  | (k, v) :: rest =>
      match scores !! k with
      | None => (scores, inl IndexError)
      | Some sk =>
          if fgeb sk v then (scores, inr (Some k))
          else spec_walk rest (np_imul scores (fdiv f1 (fsub f1 sk)))
      end
  end.

(** The walk goes through all of the mapping: every entry finds the score of
    its class, as rescaled so far, below its threshold. *)
Fixpoint all_rejected (thresholds : list (nat * F)) (scores : list F) : Prop :=
  match thresholds with
  | [] => True
  | (k, v) :: rest =>
      ∃ sk, scores !! k = Some sk ∧ fgeb sk v = false ∧
            all_rejected rest (np_imul scores (fdiv f1 (fsub f1 sk)))
  end.

(** The rescaling of the specification written out on the scalars: every
    score times [1 / (1 - sk)], with [sk] the score of the class rejected. *)
Definition spec_rescale (sk : F) (scores : list F) : list F :=
  (λ x, fmul x (fdiv f1 (fsub f1 sk))) <$> scores.

(** The class the walk of the specification assigns: that of the first entry
    whose class has a score, as rescaled by then, at or above its threshold;
    [None] when there is no such entry or an entry names a class the scores
    do not have. *)
Fixpoint walk_class (thresholds : list (nat * F)) (scores : list F) : option nat :=
  match thresholds with
  | [] => None
  | (k, v) :: rest =>
      match scores !! k with
      | None => None
      | Some sk =>
          if fgeb sk v then Some k else walk_class rest (spec_rescale sk scores)
      end
  end.

(** The scores as that walk leaves them. *)
Fixpoint walk_final (thresholds : list (nat * F)) (scores : list F) : list F :=
  match thresholds with
  | [] => scores
  | (k, v) :: rest =>
      match scores !! k with
      | None => scores
      | Some sk =>
          if fgeb sk v then scores else walk_final rest (spec_rescale sk scores)
      end
  end.

(** The mapping the shape of a particle selects. *)
Definition pid_thresholds_of (self : ParticlePropertiesProcessor F) (p : Particle F)
    : list (nat * F) :=
  if bool_decide (semantic_type p = TRACK_SHP G)
  then track_pid_thresholds self else em_pid_thresholds self.

(** [p'] is [p] up to the attributes [pid] and [is_primary]. *)
Definition same_but_pid_primary (p p' : Particle F) : Prop :=
  p' = set_is_primary (is_primary p') (set_pid (pid p') p).
(** The score arrays the particle refers to are arrays of the store. *)
Definition valid_refs (h : Heap F) (p : Particle F) : Prop :=
  (pid_scores p < length h)%nat ∧ (primary_scores p < length h)%nat.

(** [p'] is [p] up to the arrays [pid_scores] and [primary_scores] refer
    to. *)
Definition same_but_scores (p p' : Particle F) : Prop :=
  p' = set_primary_scores (primary_scores p') (set_pid_scores (pid_scores p') p).

(** What [ParticleSemanticsProcessor.process] has done to the particle [p] of
    the store [h] when it is [p'] in the store [h']: the scores it had to
    reset are those of [p] masked to the labels the shape allows and divided
    by their sum, the others are as they were. *)
Definition scores_reset (self : ParticleSemanticsProcessor)
    (h : Heap F) (p : Particle F) (h' : Heap F) (p' : Particle F) : Prop :=
  valid_refs h' p' ∧
  same_but_scores p p' ∧
  (if enforce_pid self then
     ∃ r, SHP_TO_PID G !! semantic_type p = Some r ∧
          deref h' (pid_scores p') = renormalised r (deref h (pid_scores p))
   else deref h' (pid_scores p') = deref h (pid_scores p)) ∧
  (if enforce_primary self then
     ∃ r, SHP_TO_PRIMARY G !! semantic_type p = Some r ∧
          Forall (λ i, (i < length (deref h (primary_scores p)))%nat) r ∧
          deref h' (primary_scores p') = renormalised r (deref h (primary_scores p))
   else deref h' (primary_scores p') = deref h (primary_scores p)).

(** The tables have the shape of the particle, and its primary scores have
    all the primary labels the shape allows, as far as the processor is to
    reset the scores. *)
Definition resettable (self : ParticleSemanticsProcessor)
    (h : Heap F) (p : Particle F) : Prop :=
  (enforce_pid self = true → is_Some (SHP_TO_PID G !! semantic_type p)) ∧
  (enforce_primary self = true →
     ∃ r, SHP_TO_PRIMARY G !! semantic_type p = Some r ∧
          Forall (λ i, (i < length (deref h (primary_scores p)))%nat) r).
(** [p'] is [p], or [p] with a momentum assigned. *)
Definition same_but_momentum (p p' : Particle F) : Prop :=
  p' = p ∨ ∃ m, p' = set_momentum m p.
(** The particle with [is_primary] set the way line 153 does, from the second
    of its primary scores and the threshold [t]. *)
Definition with_primary (t : F) (h : Heap F) (p : Particle F) : Particle F :=
  match deref h (primary_scores p) !! 1%nat with
  | Some s1 => set_is_primary (fgeb s1 t) p
  | None => p
  end.
End notions.

(** ** Rounding *)

(** The sum of a list of rationals, and a power of a rational. *)
Definition total (l : list Q) : Q := foldr Qplus 0%Q l.

Fixpoint qpow (q : Q) (n : nat) : Q :=
  match n with
  | O => 1%Q
  | S n => (q * qpow q n)%Q
  end.

(** What a dtype has to tell about its scalars for the rounding of a
    computation to be followed: which of them are numbers, the rational a
    number stands for, and the two factors [round_lo <= 1 <= round_hi]
    between which an operation is to stay of the exact result to count as
    accurate. *)
Class Rounded (F : Type) `{Arith F} := {
  finite : F → bool;
  val : F → Q;
  round_lo : Q;
  round_hi : Q;
  round_lo_pos : (0 < round_lo)%Q;
  round_lo_le : (round_lo <= 1)%Q;
  round_hi_ge : (1 <= round_hi)%Q;
  finite_f0 : finite f0 = true;
  val_f0 : (val f0 == 0)%Q;
}.

(** Exact arithmetic: every scalar is a number, and nothing is rounded. *)
#[export] Instance Qc_Rounded : Rounded Qc := {|
  finite := λ _, true;
  val := this;
  round_lo := 1%Q;
  round_hi := 1%Q;
  round_lo_pos := ltac:(vm_compute; reflexivity);
  round_lo_le := ltac:(vm_compute; discriminate);
  round_hi_ge := ltac:(vm_compute; discriminate);
  finite_f0 := eq_refl;
  val_f0 := ltac:(vm_compute; reflexivity);
|}.

(** Binary64: the numbers are the floats other than the infinities and NaN,
    a number [m * 2^e] stands for itself, and the factors are those of
    rounding to nearest, [1 - 2^-53] and [1 + 2^-53]. *)
Definition float_val (x : float) : Q :=
  match Prim2SF x with
  | S754_finite s m e =>
      let n := if s then Z.neg m else Z.pos m in
      match e with
      | Z0 => n # 1
      | Z.pos k => (n * 2 ^ Z.pos k) # 1
      | Z.neg k => n # (2 ^ k)
      end
  | _ => 0%Q
  end.

#[export] Instance float_Rounded : Rounded float := {|
  finite := PrimFloat.is_finite;
  val := float_val;
  round_lo := (1 - (1 # 2 ^ 53))%Q;
  round_hi := (1 + (1 # 2 ^ 53))%Q;
  round_lo_pos := ltac:(vm_compute; reflexivity);
  round_lo_le := ltac:(vm_compute; discriminate);
  round_hi_ge := ltac:(vm_compute; discriminate);
  finite_f0 := eq_refl;
  val_f0 := ltac:(vm_compute; reflexivity);
|}.

Section rounding_notions.
Context {F : Type} `{Rounded F}.
Local Open Scope Q_scope.

(** A number that is not negative. *)
Definition nonneg (x : F) : Prop := finite x = true ∧ 0 <= val x.

(** The sum and the quotient the dtype computes for [x] and [y] are numbers
    and within the two factors of the exact ones. *)
Definition add_ok (x y : F) : Prop :=
  finite (fadd x y) = true ∧
  round_lo * (val x + val y) <= val (fadd x y) ∧
  val (fadd x y) <= round_hi * (val x + val y).

Definition div_ok (x y : F) : Prop :=
  finite (fdiv x y) = true ∧
  round_lo * (val x / val y) <= val (fdiv x y) ∧
  val (fdiv x y) <= round_hi * (val x / val y).

(** Every addition made when the entries of [l] are added to [c] one after
    the other is accurate. *)
Fixpoint sums_ok (c : F) (l : list F) : Prop :=
  match l with
  | [] => True
  | x :: l => add_ok c x ∧ sums_ok (fadd c x) l
  end.

(** Every operation made to renormalise [a] under the mask [allowed] is
    accurate: the additions that sum the masked vector, and the division of
    each of its entries by that sum. *)
Definition accurate (allowed : list nat) (a : list F) : Prop :=
  let m := mask allowed a in
  sums_ok f0 m ∧ Forall (λ x, div_ok x (foldl fadd f0 m)) m.

(** The exact sum of the entries of [a] at the allowed labels. *)
Definition allowed_mass (allowed : list nat) (a : list F) : Q :=
  total (imap (λ i x, if bool_decide (i ∈ allowed) then val x else 0) a).

(** Scores that can be renormalised: none is negative, there is weight on
    the allowed labels, and the operations are accurate. *)
Definition well_rounded (allowed : list nat) (a : list F) : Prop :=
  Forall nonneg a ∧ 0 < allowed_mass allowed a ∧ accurate allowed a.

(** Scores that are a distribution on the allowed labels within the
    tolerance of the rounding: zero outside the allowed labels, none
    negative, and with an exact sum that is one up to one rounding of a
    division and one rounding per entry of the sum they were divided by.
    And [np.sum] of them is one up to one more rounding per entry, if its
    additions are accurate in turn. *)
Definition within_tolerance (allowed : list nat) (a : list F) : Prop :=
  (∀ (i : nat) x, i ∉ allowed → a !! i = Some x → val x == 0) ∧
  Forall nonneg a ∧
  round_lo / qpow round_hi (length a) <= total (val <$> a) ∧
  total (val <$> a) <= round_hi / qpow round_lo (length a) ∧
  (sums_ok f0 a →
   qpow round_lo (length a) * (round_lo / qpow round_hi (length a)) <= val (np_sum a) ∧
   val (np_sum a) <= qpow round_hi (length a) * (round_hi / qpow round_lo (length a))).

(** Two score vectors whose entries are within the factor
    [(round_hi / round_lo) ^ (n + 1)] of each other. *)
Definition close (a b : list F) : Prop :=
  Forall2 (λ x y,
      val x <= qpow (round_hi / round_lo) (S (length a)) * val y ∧
      val y <= qpow (round_hi / round_lo) (S (length a)) * val x) a b.
End rounding_notions.

(** What a run of [process] with both flags has made of the scores of every
    particle: [post] holds of the labels the shape of the particle allows, of
    its old scores and of its new ones, for the PID scores and for the
    primary scores. *)
Definition reset_scores {F I} (post : list nat → list F → list F → Prop)
    (G : Globals F) (ev ev' : Event F I) (h h' : Heap F) : Prop :=
  Forall2 (λ p p',
      ∃ r_pid r_primary,
        SHP_TO_PID G !! semantic_type p = Some r_pid ∧
        SHP_TO_PRIMARY G !! semantic_type p = Some r_primary ∧
        post r_pid (deref h (pid_scores p)) (deref h' (pid_scores p')) ∧
        post r_primary (deref h (primary_scores p)) (deref h' (primary_scores p')))
    (particles ev) (particles ev').

(** What a second run leaves of the scores [a1] that the first run left of
    [a]: scores close to [a1] where the processor resets them, provided the
    operations of both runs are accurate, and [a1] itself where it does
    not. *)
Definition rerun {F} `{Rounded F} (flag : bool) (allowed : option (list nat))
    (a a1 a2 : list F) : Prop :=
  if flag
  then ∀ r, allowed = Some r → well_rounded r a → accurate r a1 → close a1 a2
  else a2 = a1.

(** * Properties *)

(** ** The store *)

Section store_facts.
Context {F : Type}.
Implicit Types (h : Heap F) (a b : list F).

Lemma deref_new h a : deref (h ++ [a]) (length h) = a.
Proof. unfold deref. by rewrite list_lookup_middle. Qed.

Lemma store_new h a b : store (h ++ [a]) (length h) b = h ++ [b].
Proof. unfold store. by rewrite insert_app_r_alt, Nat.sub_diag. Qed.

(** Adding arrays to the store does not change what a reference to an array
    of the store reads. *)
Lemma deref_app h extra (l : loc) :
  (l < length h)%nat → deref (h ++ extra) l = deref h l.
Proof. intros Hl. unfold deref. by rewrite lookup_app_l. Qed.
End store_facts.

(** ** The monad and the loops *)

Ltac run :=
  repeat (progress (unfold mbind, M_bind, mret, M_ret, raise, get_p, set_p, modify,
                      read, new, write, try, dict_get; cbn [fst snd prod_map id])).

Section loops.
Context {F : Type}.
Implicit Types (body : M (@PState F) unit) (ps : list (Particle F)) (h : Heap F).

(** When the loop over the particles ends without an exception, the body ran
    to its end on every particle, each time from some store. *)
Lemma for_particles_done body ps h ps' h' :
  for_particles body ps h = ((ps', h'), inr tt) →
  Forall2 (λ p p', ∃ h1 h2, body (p, h1) = ((p', h2), inr tt)) ps ps'.
Proof.
  revert h ps'. induction ps as [|p ps IH]; intros h ps' Hrun; simpl in Hrun.
  - injection Hrun as <- _. constructor.
  - destruct (body (p, h)) as [[p1 h1] [e|[]]] eqn:Hb; [discriminate|].
    destruct (for_particles body ps h1) as [[ps1 h2] r] eqn:Hrest.
    injection Hrun as <- <- ->. constructor; eauto.
Qed.

(** The loop stops at the first particle on which the body raises: the
    particles before it are as the body left them, the others as they
    were. *)
Lemma for_particles_raise body ps1 ps1' p p' ps2 h h1 h2 e :
  for_particles body ps1 h = ((ps1', h1), inr tt) →
  body (p, h1) = ((p', h2), inl e) →
  for_particles body (ps1 ++ p :: ps2) h = ((ps1' ++ p' :: ps2, h2), inl e).
Proof.
  revert h ps1'. induction ps1 as [|q ps1 IH]; intros h ps1' Hrun Hraise; simpl in *.
  - injection Hrun as <- <-. by rewrite Hraise.
  - destruct (body (q, h)) as [[q1 hq] [eq|[]]]; [discriminate|].
    destruct (for_particles body ps1 hq) as [[ps1q hq'] r] eqn:Hrest.
    injection Hrun as <- <- ->. by rewrite (IH _ _ Hrest Hraise).
Qed.

(** A body that never raises and leaves the store alone makes the loop a
    [map]. *)
Lemma for_particles_map body (f : Particle F → Particle F) ps h :
  Forall (λ p, body (p, h) = ((f p, h), inr tt)) ps →
  for_particles body ps h = ((map f ps, h), inr tt).
Proof.
  induction 1 as [|p ps Hp _ IH]; simpl; [done|].
  by rewrite Hp, IH.
Qed.
(** What every run of the body keeps between the particle before and after,
    the whole loop keeps, whether it ends or raises; and arrays are only ever
    added to the store, if that is so for the body. *)
Lemma for_particles_frame body (R : Particle F → Particle F → Prop) ps h ps' h' r :
  (∀ p, R p p) →
  (∀ p h p' h' r, body (p, h) = ((p', h'), r) → R p p' ∧ ∃ extra, h' = h ++ extra) →
  for_particles body ps h = ((ps', h'), r) →
  Forall2 R ps ps' ∧ ∃ extra, h' = h ++ extra.
Proof.
  intros Hrefl Hbody. revert h ps' h' r.
  induction ps as [|p ps IH]; intros h ps' h' r Hrun; simpl in Hrun.
  - injection Hrun as <- <- <-. split; [constructor|]. exists []. by rewrite app_nil_r.
  - destruct (body (p, h)) as [[p1 h1] [e|[]]] eqn:Hb.
    + injection Hrun as <- <- <-. apply Hbody in Hb as [Hp Hh].
      split; [|done]. constructor; [done|].
      apply Forall_Forall2_diag, Forall_forall. auto.
    + destruct (for_particles body ps h1) as [[ps1 h2] r1] eqn:Hrest.
      injection Hrun as <- <- <-.
      apply Hbody in Hb as [Hp [extra1 ->]].
      apply IH in Hrest as [Hps [extra2 ->]].
      split; [by constructor|]. exists (extra1 ++ extra2). by rewrite app_assoc.
Qed.
(** A loop that ended without an exception, over particles that meet a
    condition [Pre] which adding arrays to the store does not break: the body
    ran to its end on every particle, from a store that extends the initial
    one to a store that the final one extends. *)
Lemma for_particles_done_inv body (Pre : Heap F → Particle F → Prop) ps h ps' h' :
  (∀ p h extra, Pre h p → Pre (h ++ extra) p) →
  (∀ p h p' h', Pre h p → body (p, h) = ((p', h'), inr tt) → ∃ extra, h' = h ++ extra) →
  Forall (Pre h) ps →
  for_particles body ps h = ((ps', h'), inr tt) →
  (∃ extra, h' = h ++ extra) ∧
  Forall2 (λ p p', ∃ ha hb e1 e2,
      ha = h ++ e1 ∧ h' = hb ++ e2 ∧ Pre ha p ∧ body (p, ha) = ((p', hb), inr tt))
    ps ps'.
Proof.
  intros Hstable Hbody. revert h ps'.
  induction ps as [|p ps IH]; intros h ps' Hpre Hrun; simpl in Hrun.
  - injection Hrun as <- <-. split; [|constructor]. exists []. by rewrite app_nil_r.
  - apply Forall_cons in Hpre as [Hp Hps].
    destruct (body (p, h)) as [[p1 h1] [e|[]]] eqn:Hb; [discriminate|].
    destruct (for_particles body ps h1) as [[ps1 h2] r1] eqn:Hrest.
    injection Hrun as <- <- ->.
    destruct (Hbody _ _ _ _ Hp Hb) as [e ->].
    apply IH in Hrest as [[e' ->] Hall];
      [|eapply Forall_impl; [exact Hps|]; intros; by apply Hstable].
    split; [exists (e ++ e'); by rewrite app_assoc|]. constructor.
    + exists h, (h ++ e), [], e'. by rewrite app_nil_r.
    + eapply Forall2_impl; [exact Hall|].
      intros q q' (ha & hb & e1 & e2 & -> & Hh' & Hq & Hrunq).
      exists (h ++ e ++ e1), hb, (e ++ e1), e2. by rewrite !app_assoc.
Qed.

(** A loop over particles on which the body always ends without an exception
    ends without an exception. *)
Lemma for_particles_completes body (Pre : Heap F → Particle F → Prop) ps h :
  (∀ p h extra, Pre h p → Pre (h ++ extra) p) →
  (∀ p h, Pre h p →
     ∃ p' extra, body (p, h) = ((p', h ++ extra), inr tt)) →
  Forall (Pre h) ps →
  ∃ ps' h', for_particles body ps h = ((ps', h'), inr tt).
Proof.
  intros Hstable Hbody. revert h.
  induction ps as [|p ps IH]; intros h Hpre; simpl; [by eexists _, _|].
  apply Forall_cons in Hpre as [Hp Hps].
  destruct (Hbody _ _ Hp) as (p' & extra & ->).
  destruct (IH (h ++ extra)) as (ps' & h' & ->);
    [eapply Forall_impl; [exact Hps|]; intros; by apply Hstable|].
  by eexists _, _.
Qed.
End loops.

(** ** Arrays: gathering, scattering and the mask *)

Section array_facts.
Context {F : Type} `{Arith F}.
Implicit Types (a z : list F) (idx : list nat).

Lemma np_take_in_range a idx :
  Forall (λ i, (i < length a)%nat) idx → ∃ vals, np_take a idx = inr vals.
Proof.
  induction 1 as [|i idx Hi _ [vals IH]]; simpl; [by eexists|].
  apply lookup_lt_is_Some_2 in Hi as [x ->]. rewrite IH. by eexists.
Qed.

Lemma np_take_out_of_range a idx :
  ¬ Forall (λ i, (i < length a)%nat) idx → np_take a idx = inl IndexError.
Proof.
  induction idx as [|i idx IH]; simpl; intros Hno.
  - destruct Hno. constructor.
  - destruct (a !! i) as [x|] eqn:Hi; [|done].
    rewrite IH; [done|]. intros Hall. apply Hno. constructor; [|done].
    by eapply lookup_lt_Some.
Qed.

(** Scattering what was gathered from [a] into [z]: the indices of [idx]
    hold the entries of [a], the others what [z] had. *)
Lemma np_put_loop_take a idx : ∀ z vals i,
  length z = length a →
  np_take a idx = inr vals →
  np_put_loop z idx vals !! i = if bool_decide (i ∈ idx) then a !! i else z !! i.
Proof.
  induction idx as [|i0 idx IH]; intros z vals i Hlen Htake; simpl in *.
  - by injection Htake as <-.
  - destruct (a !! i0) as [x|] eqn:Hi0; [|done].
    destruct (np_take a idx) as [e|xs] eqn:Hxs; [done|]. injection Htake as <-.
    erewrite IH; [|by rewrite length_insert|done].
    destruct (decide (i ∈ idx)) as [Hin|Hnin].
    + rewrite !bool_decide_eq_true_2; [done|by right|done].
    + rewrite (bool_decide_eq_false_2 (i ∈ idx)) by done.
      destruct (decide (i = i0)) as [->|Hne].
      * rewrite bool_decide_eq_true_2 by left.
        rewrite list_lookup_insert_eq; [done|].
        rewrite Hlen. by eapply lookup_lt_Some.
      * rewrite list_lookup_insert_ne by done.
        rewrite bool_decide_eq_false_2; [done|].
        intros [?|?]%elem_of_cons; done.
Qed.

(** Gathering the allowed entries of [a] and scattering them into zeros is
    masking [a]. *)
Lemma np_put_take_mask a idx :
  Forall (λ i, (i < length a)%nat) idx →
  ∃ vals, np_take a idx = inr vals
          ∧ np_put (np_zeros (length a)) idx vals = inr (mask idx a).
Proof.
  intros Hall. destruct (np_take_in_range a idx Hall) as [vals Hvals].
  exists vals. split; [done|]. unfold np_put.
  replace (forallb _ idx) with true; cycle 1.
  { symmetry. apply forallb_forall. intros i Hi. apply bool_decide_eq_true_2.
    unfold np_zeros. rewrite length_replicate.
    rewrite Forall_forall in Hall. by apply Hall, list_elem_of_In. }
  f_equal. apply list_eq. intros i.
  erewrite np_put_loop_take; [|by unfold np_zeros; rewrite length_replicate|done].
  unfold mask, np_zeros. rewrite list_lookup_imap.
  destruct (a !! i) as [x|] eqn:Hi; simpl.
  - case_bool_decide; [done|]. apply lookup_replicate_2. by eapply lookup_lt_Some.
  - case_bool_decide; [done|]. apply lookup_replicate_None.
    by apply lookup_ge_None.
Qed.

(** Indices at or beyond the length of the vector do not matter to the
    mask. *)
Lemma mask_below idx a : mask (np_below idx (length a)) a = mask idx a.
Proof.
  apply list_eq. intros i. unfold mask, np_below. rewrite !list_lookup_imap.
  destruct (a !! i) as [x|] eqn:Hi; [simpl|done]. f_equal.
  apply lookup_lt_Some in Hi.
  destruct (decide (i ∈ idx)) as [Hin|Hnin].
  - rewrite !bool_decide_eq_true_2; [done..|]. by apply list_elem_of_filter.
  - rewrite !bool_decide_eq_false_2; [done..|]. by intros [_ ?]%list_elem_of_filter.
Qed.

Lemma np_below_in_range idx n : Forall (λ i, (i < n)%nat) (np_below idx n).
Proof. apply Forall_forall. by intros i [? _]%list_elem_of_filter. Qed.

Lemma length_mask idx a : length (mask idx a) = length a.
Proof. unfold mask. apply length_imap. Qed.

Lemma length_renormalised idx a : length (renormalised idx a) = length a.
Proof. unfold renormalised, np_idiv. by rewrite length_map, length_mask. Qed.
End array_facts.

(** ** MomentumProcessor *)

Section momentum.
Context {F : Type} `{Floating F}.
Context (G : Globals F).
Implicit Types (self : MomentumProcessor) (p : Particle F) (h : Heap F).

(** The body of the loop, case by case. *)
Lemma momentum_body_cases self p h :
  momentum_body G self (p, h) =
    if bool_decide (pid p < 0) then ((p, h), inr tt)
    else match PID_MASSES G !! pid p with
         | None => ((p, h), inl (ValueError bad_pid_msg))
         | Some mass =>
             if fltb (resolve_ke G self p) f0
             then ((p, h), inl (ValueError no_ke_msg))
             else match start_dir p !! 0%nat with
                  | None => ((p, h), inl IndexError)
                  | Some d0 =>
                      if feqb d0 fneg_inf
                      then ((p, h), inl (ValueError no_dir_msg))
                      else ((with_momentum G self p, h), inr tt)
                  end
         end.
Proof.
  unfold momentum_body, with_momentum, np_item. run.
  case_bool_decide; [done|].
  destruct (PID_MASSES G !! pid p) as [mass|] eqn:Hm.
  - rewrite bool_decide_eq_false_2 by done.
    destruct (fltb _ _); [done|].
    destruct (start_dir p !! 0%nat) as [d0|]; run; [|done].
    by destruct (feqb _ _).
  - by rewrite bool_decide_eq_true_2.
Qed.

(** A particle that is ready gets its momentum; the store is not touched. *)
Lemma momentum_body_ready self p h :
  momentum_ready G self p →
  momentum_body G self (p, h) = ((with_momentum G self p, h), inr tt).
Proof.
  intros (Hpid & [mass Hm] & Hke & d0 & Hd & Hinf).
  rewrite momentum_body_cases, bool_decide_eq_false_2 by lia.
  by rewrite Hm, Hke, Hd, Hinf.
Qed.

(** A particle without a determined PID is passed over. *)
Lemma momentum_body_skip self p h :
  pid p < 0 → momentum_body G self (p, h) = ((p, h), inr tt).
Proof.
  intros Hpid. by rewrite momentum_body_cases, bool_decide_eq_true_2.
Qed.

(** If the body ends without an exception, the particle either was ready and
    got its momentum, or had no determined PID and is as before. *)
Lemma momentum_body_done self p h p' h' :
  momentum_body G self (p, h) = ((p', h'), inr tt) →
  h' = h ∧
  ((momentum_ready G self p ∧ p' = with_momentum G self p)
   ∨ (pid p < 0 ∧ p' = p)).
Proof.
  rewrite momentum_body_cases. case_bool_decide as Hpid.
  { intros [= <- <-]. split; [done|]. by right. }
  destruct (PID_MASSES G !! pid p) as [mass|] eqn:Hm; [|done].
  destruct (fltb _ _) eqn:Hke; [done|].
  destruct (start_dir p !! 0%nat) as [d0|] eqn:Hd; [|done].
  destruct (feqb _ _) eqn:Hinf; [done|].
  intros [= <- <-]. split; [done|]. left. split; [|done].
  repeat split; [lia|by eexists|done|by eexists]. 
Qed.

(** Under the method "best" the code chooses as the specification says. *)
Lemma resolve_ke_best self p :
  method self = "best"%string → resolve_ke G self p = spec_resolve_ke G self p.
Proof.
  intros Hm. unfold resolve_ke, spec_resolve_ke. rewrite Hm. done.
Qed.

(** A contained track with a positive CSDA estimate gets that estimate,
    whatever the method. *)
Lemma resolve_ke_contained_csda self p :
  semantic_type p = TRACK_SHP G → is_contained p = true →
  fgtb (csda_ke p) f0 = true →
  resolve_ke G self p = csda_ke p.
Proof.
  intros Hs Hc Hk. unfold resolve_ke.
  rewrite bool_decide_eq_false_2 by (intros ?; done).
  by rewrite Hc, Hk, orb_true_r.
Qed.
End momentum.

Section momentum_claims.
Context {F : Type} `{Floating F}.
Context (G : Globals F).
Implicit Types (self : MomentumProcessor) (p : Particle F) (h : Heap F).

(** The loop runs to its end over particles that are ready or without a
    determined PID. *)
Lemma momentum_loop_completes self ps h :
  Forall (λ p, momentum_ready G self p ∨ pid p < 0) ps →
  for_particles (momentum_body G self) ps h
  = ((map (momentum_update G self) ps, h), inr tt).
Proof.
  intros Hall. apply for_particles_map.
  eapply Forall_impl; [exact Hall|]. intros p Hp. unfold momentum_update.
  case_bool_decide as Hpid.
  - by apply momentum_body_skip.
  - destruct Hp as [Hp|Hp]; [by apply momentum_body_ready|lia].
Qed.

(** [process] runs to its end on an event all of whose particles are ready
    or without a determined PID. *)
Lemma momentum_process_completes {I} self (ev : Event F I) h :
  Forall (λ p, momentum_ready G self p ∨ pid p < 0) (particles ev) →
  momentum_process G self (ev, h)
  = ((mkEvent (map (momentum_update G self) (particles ev)) (interactions ev), h), inr tt).
Proof.
  intros Hall. unfold momentum_process. cbn [fst snd].
  by rewrite momentum_loop_completes.
Qed.

(** C6, as amended.  For a particle with a determined and supported PID whose
    resolved kinetic energy is below zero, the body of the loop raises the
    [ValueError] on the missing [*_ke] attributes and leaves the particle,
    its momentum included, and the store as they were; and [process] raises
    that exception on every event in which the particles before this one are
    ready or without a determined PID. *)
Theorem momentum_negative_ke_raises self p h :
  0 ≤ pid p →
  is_Some (PID_MASSES G !! pid p) →
  fltb (resolve_ke G self p) f0 = true →
  momentum_body G self (p, h) = ((p, h), inl (ValueError no_ke_msg))
  ∧ ∀ (I : Type) ps1 ps2 (ias : list I),
      Forall (λ q, momentum_ready G self q ∨ pid q < 0) ps1 →
      momentum_process G self (mkEvent (ps1 ++ p :: ps2) ias, h)
      = ((mkEvent (map (momentum_update G self) ps1 ++ p :: ps2) ias, h),
         inl (ValueError no_ke_msg)).
Proof.
  intros Hpid [mass Hm] Hke.
  assert (momentum_body G self (p, h) = ((p, h), inl (ValueError no_ke_msg))) as Hb.
  { rewrite momentum_body_cases, bool_decide_eq_false_2 by lia. by rewrite Hm, Hke. }
  split; [done|]. intros I ps1 ps2 ias Hps1.
  unfold momentum_process. cbn [fst snd particles interactions].
  by erewrite for_particles_raise; [|by apply momentum_loop_completes|done].
Qed.

(** C7, as amended.  When [process] has run to its end on an event, the store
    is as before and every particle that had a determined and supported PID,
    a resolved kinetic energy not below zero and a direction that is set has
    its momentum assigned, while every other particle is one without a
    determined PID and is exactly as before.  A particle with [pid = -1] is
    passed over without an exception. *)
Theorem momentum_filled_iff_ready {I} self (ev ev' : Event F I) h h' :
  momentum_process G self (ev, h) = ((ev', h'), inr tt) →
  Forall2 (λ p p',
      (momentum_ready G self p →
         p' = with_momentum G self p ∧ is_Some (momentum p')) ∧
      (¬ momentum_ready G self p → pid p < 0 ∧ p' = p))
    (particles ev) (particles ev')
  ∧ (∀ p h, pid p = -1 → momentum_body G self (p, h) = ((p, h), inr tt)).
Proof.
  intros Hrun. split; [|intros p h0 Hp; apply momentum_body_skip; lia].
  unfold momentum_process in Hrun. cbn [fst snd] in Hrun.
  destruct (for_particles _ _ _) as [[ps h1] r] eqn:Hloop.
  injection Hrun as <- <- ->. cbn [particles].
  apply for_particles_done in Hloop.
  eapply Forall2_impl; [exact Hloop|].
  intros p p' (ha & hb & Hb). apply momentum_body_done in Hb as [_ Hb].
  destruct Hb as [[Hr ->]|[Hpid ->]].
  - split; [|done]. intros _. split; [done|].
    destruct Hr as (_ & [mass Hm] & _). unfold with_momentum. rewrite Hm. by eexists.
  - split; [|done]. intros (Hpos & _). lia.
Qed.
End momentum_claims.

(** *** On concrete particles *)

Section momentum_examples.
Import Sample.
Local Open Scope float_scope.

(** C1.  The methods "calo" and "mcs" do not govern contained tracks: with a
    positive CSDA estimate the code takes that estimate, where the
    specification (and the docstring of the constructor) takes the
    calorimetric estimate under "calo" and the MCS estimate under "mcs". *)
Theorem resolve_ke_contained_track_ignores_method :
  momentum_init "calo" = inr (mkMomentum "calo") ∧
  momentum_init "mcs" = inr (mkMomentum "mcs") ∧
  resolve_ke float_globals (mkMomentum "calo") (contained_muon 45 50 (-1)) = 50 ∧
  spec_resolve_ke float_globals (mkMomentum "calo") (contained_muon 45 50 (-1)) = 45 ∧
  resolve_ke float_globals (mkMomentum "mcs") (contained_muon 45 50 40) = 50 ∧
  spec_resolve_ke float_globals (mkMomentum "mcs") (contained_muon 45 50 40) = 40.
Proof. repeat split; vm_compute; reflexivity. Qed.

(** The momentum failure of the specification: a contained track with all
    three estimates at -1 raises, under every method. *)
Lemma momentum_all_unset_raises self h :
  momentum_body float_globals self (contained_muon (-1) (-1) (-1), h)
  = ((contained_muon (-1) (-1) (-1), h), inl (ValueError no_ke_msg)).
Proof.
  rewrite momentum_body_cases.
  assert (resolve_ke float_globals self (contained_muon (-1) (-1) (-1)) = -1) as ->.
  { unfold resolve_ke. cbn. by rewrite !andb_false_r. }
  reflexivity.
Qed.

Lemma momentum_negative_ke_raises_witness :
  momentum_process float_globals (mkMomentum "best")
    (mkEvent [contained_muon 45 50 (-1); contained_muon (-1) (-1) (-1)]
       ([] : list unit), [])
  = ((mkEvent [set_momentum [0; 0; 114.30573039003778]
                 (contained_muon 45 50 (-1));
               contained_muon (-1) (-1) (-1)] [], []),
     inl (ValueError no_ke_msg)).
Proof.
  etrans.
  - apply (proj2 (momentum_negative_ke_raises float_globals (mkMomentum "best")
                    (contained_muon (-1) (-1) (-1)) [] ltac:(vm_compute; discriminate)
                    ltac:(vm_compute; eauto) ltac:(vm_compute; reflexivity))
             unit [contained_muon 45 50 (-1)] [] []).
    constructor; [|constructor]. left.
    repeat split; vm_compute; (discriminate || eauto).
  - vm_compute. reflexivity.
Defined.

(** C6 as stated fails at a kinetic energy of exactly zero: the shower
    electron with [calo_ke = 0] has a resolved energy that is not positive,
    and yet no exception is raised and its momentum is assigned. *)
Lemma momentum_zero_ke_no_error :
  let p := shower_electron 0 in
  0 ≤ pid p ∧ is_Some (PID_MASSES float_globals !! pid p) ∧
  fgtb (resolve_ke float_globals (mkMomentum "best") p) f0 = false ∧
  fleb (resolve_ke float_globals (mkMomentum "best") p) f0 = true ∧
  momentum_body float_globals (mkMomentum "best") (p, [])
  = ((set_momentum [0; 0; 0] p, []), inr tt).
Proof.
  repeat split; try (vm_compute; (discriminate || eauto || reflexivity)).
Qed.

(** C7 as stated fails on the same particle: [process] runs to its end and
    the momentum is filled, with a resolved kinetic energy that is not
    positive. *)
Lemma momentum_filled_at_zero_ke :
  let p := shower_electron 0 in
  let ev := mkEvent [p] ([] : list unit) in
  fgtb (resolve_ke float_globals (mkMomentum "best") p) f0 = false ∧
  momentum_process float_globals (mkMomentum "best") (ev, [])
  = ((mkEvent [set_momentum [0; 0; 0] p] [], []), inr tt).
Proof. split; vm_compute; reflexivity. Qed.

Lemma momentum_filled_iff_ready_witness :
  let ev := mkEvent [contained_muon 45 50 (-1); set_pid (-1) (shower_electron 1)]
              ([] : list unit) in
  Forall2 (λ p p',
      (momentum_ready float_globals (mkMomentum "best") p →
         p' = with_momentum float_globals (mkMomentum "best") p
         ∧ is_Some (momentum p')) ∧
      (¬ momentum_ready float_globals (mkMomentum "best") p → pid p < 0 ∧ p' = p))
    (particles ev)
    (map (momentum_update float_globals (mkMomentum "best")) (particles ev)).
Proof.
  intros ev.
  refine (proj1 (momentum_filled_iff_ready float_globals (mkMomentum "best")
                   ev (mkEvent _ _) [] [] _)).
  vm_compute. reflexivity.
Defined.
End momentum_examples.

(** ** ParticlePropertiesProcessor *)

Section properties.
Context {F : Type} `{Floating F}.
Context (G : Globals F).
Implicit Types (self : ParticlePropertiesProcessor F) (p : Particle F) (h : Heap F).

(** One turn of the loop over the thresholds, on the array [a] at [scores]. *)
Lemma threshold_step_cases scores k v assigned p h a :
  h !! scores = Some a →
  threshold_step scores (k, v) assigned (p, h) =
    match a !! k with
    | None => ((p, h), inl IndexError)
    | Some sk =>
        if fgeb sk v then ((set_pid (Z.of_nat k) p, h), inr (Break, true))
        else ((p, <[scores := np_imul a (fdiv f1 (fsub f1 sk))]> h),
              inr (Next, assigned))
    end.
Proof.
  intros Ha. unfold threshold_step, np_item. run. unfold deref, store.
  rewrite Ha. simpl. destruct (a !! k) as [sk|] eqn:Hk; [|done].
  destruct (fgeb sk v); [done|]. cbn [fst snd]. rewrite Ha. simpl. by rewrite Hk.
Qed.

(** The loop over the thresholds, run on the array at [scores], does what the
    walk of the specification does on the contents of that array. *)
Lemma threshold_loop_spec_walk ths : ∀ p h scores a assigned,
  h !! scores = Some a →
  for_in ths assigned (threshold_step scores) (p, h) =
    match spec_walk ths a with
    | (a', inr (Some k)) => ((set_pid (Z.of_nat k) p, <[scores := a']> h), inr true)
    | (a', inr None) => ((p, <[scores := a']> h), inr assigned)
    | (a', inl e) => ((p, <[scores := a']> h), inl e)
    end.
Proof.
  induction ths as [|[k v] ths IH]; intros p h scores a assigned Ha; simpl.
  - run. by rewrite list_insert_id.
  - unfold mbind, M_bind. rewrite (threshold_step_cases _ _ _ _ _ _ a Ha).
    destruct (a !! k) as [sk|]; [|by rewrite list_insert_id].
    destruct (fgeb sk v); cbn [fst snd]; [run; by rewrite list_insert_id|].
    assert (scores < length h)%nat as Hlt by (by eapply lookup_lt_Some).
    erewrite IH; [|by apply list_lookup_insert_eq].
    destruct (spec_walk ths _) as [a' [e|[k'|]]]; by rewrite list_insert_insert_eq.
Qed.

(** The walk assigns no class exactly when every entry is rejected. *)
Lemma spec_walk_all_rejected ths : ∀ scores,
  all_rejected ths scores ↔ ∃ a, spec_walk ths scores = (a, inr None).
Proof.
  induction ths as [|[k v] ths IH]; intros scores; simpl.
  - split; [by eexists|done].
  - split.
    + intros (sk & -> & -> & Hrest). by apply IH.
    + intros [a Ha]. destruct (scores !! k) as [sk|]; [|done].
      destruct (fgeb sk v) eqn:Hge; [done|]. exists sk.
      split; [done|]. split; [done|]. apply IH. by eexists.
Qed.

(** [adjust_pid] copies the scores of the particle to a new array, walks the
    thresholds on that copy, and assigns the class the walk ends with. *)
Lemma adjust_pid_spec_walk self p h :
  adjust_pid G self (p, h) =
    if bool_decide (length (pid_thresholds_of G self p) ≠ 0%nat) then
      match spec_walk (pid_thresholds_of G self p) (deref h (pid_scores p)) with
      | (a', inr (Some k)) => ((set_pid (Z.of_nat k) p, h ++ [a']), inr tt)
      | (a', inr None) => ((p, h ++ [a']), inl (AssertionError coverage_msg))
      | (a', inl e) => ((p, h ++ [a']), inl e)
      end
    else ((p, h), inr tt).
Proof.
  unfold adjust_pid, pid_thresholds_of.
  unfold mbind at 1, M_bind at 1, get_p. cbn [fst snd].
  set (ths := if bool_decide (semantic_type p = TRACK_SHP G) then _ else _).
  destruct (bool_decide (length ths ≠ 0%nat)); [|reflexivity].
  unfold mbind at 1, M_bind at 1, read. cbn [fst snd].
  unfold mbind at 1, M_bind at 1, new, alloc. cbn [fst snd].
  unfold mbind at 1, M_bind at 1.
  erewrite threshold_loop_spec_walk; [|by apply list_lookup_middle].
  destruct (spec_walk _ _) as [a' [e|[k'|]]];
    rewrite insert_app_r_alt, Nat.sub_diag by done; done.
Qed.
(** The walk on the array of the store and the walk of the specification
    written out assign the same class and leave the same scores. *)
Lemma spec_walk_walk_class ths : ∀ scores a r,
  spec_walk ths scores = (a, r) →
  a = walk_final ths scores
  ∧ walk_class ths scores = match r with inr (Some k) => Some k | _ => None end.
Proof.
  induction ths as [|[k v] ths IH]; intros scores a r; simpl.
  - by intros [= <- <-].
  - destruct (scores !! k) as [sk|]; [|by intros [= <- <-]].
    destruct (fgeb sk v); [by intros [= <- <-]|].
    unfold np_imul. change (map ?f ?l) with (f <$> l). apply IH.
Qed.

(** [adjust_pid] on a mapping that is not empty, by the class the walk of the
    specification assigns. *)
Lemma adjust_pid_walk_class self p h :
  length (pid_thresholds_of G self p) ≠ 0%nat →
  let ths := pid_thresholds_of G self p in
  let scores := deref h (pid_scores p) in
  match walk_class ths scores with
  | Some k =>
      adjust_pid G self (p, h)
      = ((mkParticle (semantic_type p) (pid_scores p) (primary_scores p) (Z.of_nat k)
            (is_primary p) (is_contained p) (calo_ke p) (csda_ke p) (mcs_ke p)
            (start_dir p) (momentum p),
          h ++ [walk_final ths scores]), inr tt)
  | None =>
      ∃ e, adjust_pid G self (p, h) = ((p, h ++ [walk_final ths scores]), inl e)
  end.
Proof.
  intros Hlen ths scores. rewrite adjust_pid_spec_walk, bool_decide_eq_true_2 by done.
  fold ths scores. destruct (spec_walk ths scores) as [a r] eqn:Hw.
  apply spec_walk_walk_class in Hw as [-> ->].
  destruct r as [e|[k|]]; [by eexists|done|by eexists].
Qed.

(** [adjust_primary], case by case. *)
Lemma adjust_primary_cases self p h :
  adjust_primary self (p, h) =
    match primary_threshold self with
    | None => ((p, h), inr tt)
    | Some t =>
        match deref h (primary_scores p) !! 1%nat with
        | None => ((p, h), inl IndexError)
        | Some s1 => ((set_is_primary (fgeb s1 t) p, h), inr tt)
        end
    end.
Proof.
  unfold adjust_primary, np_item. destruct (primary_threshold self) as [t|]; [|done].
  run. by destruct (deref h (primary_scores p) !! 1%nat).
Qed.

Lemma same_but_pid_primary_refl p : same_but_pid_primary p p.
Proof. by destruct p. Qed.

Lemma same_but_pid_primary_scores p p' :
  same_but_pid_primary p p' →
  pid_scores p' = pid_scores p ∧ primary_scores p' = primary_scores p.
Proof. unfold same_but_pid_primary. by intros ->. Qed.

(** The body of the loop changes nothing of the particle but [pid] and
    [is_primary], and nothing of the store but for the arrays it adds,
    whether it ends or raises. *)
Lemma properties_body_frame self p h p' h' r :
  properties_body G self (p, h) = ((p', h'), r) →
  same_but_pid_primary p p' ∧ ∃ extra, h' = h ++ extra.
Proof.
  unfold properties_body, mbind, M_bind. rewrite adjust_pid_spec_walk.
  assert (∀ p1 h1, same_but_pid_primary p p1 → (∃ extra, h1 = h ++ extra) →
            adjust_primary self (p1, h1) = ((p', h'), r) →
            same_but_pid_primary p p' ∧ ∃ extra, h' = h ++ extra) as Hprim.
  { intros p1 h1 Hp1 Hh1. rewrite adjust_primary_cases.
    destruct (primary_threshold self) as [t|].
    - destruct (deref h1 (primary_scores p1) !! 1%nat) as [s1|];
        intros [= <- <- <-]; (split; [|done]); [|done].
      unfold same_but_pid_primary in *. rewrite Hp1. by destruct p.
    - by intros [= <- <- <-]. }
  destruct (bool_decide _).
  - destruct (spec_walk _ _) as [a' [e|[k|]]].
    + intros [= <- <- <-]. split; [apply same_but_pid_primary_refl|by eexists].
    + apply Hprim; [by destruct p|by eexists].
    + intros [= <- <- <-]. split; [apply same_but_pid_primary_refl|by eexists].
  - apply Hprim; [apply same_but_pid_primary_refl|]. exists []. by rewrite app_nil_r.
Qed.
End properties.

Section properties_claims.
Context {F : Type} `{Floating F}.
Context (G : Globals F).
Context {I : Type} (update_particle_info : list (Particle F) → Heap F → I → I).
Implicit Types (self : ParticlePropertiesProcessor F) (p : Particle F) (h : Heap F).

(** C5.  When the shape of a particle selects a mapping that is not empty and
    the walk goes through all of it, every entry finding the score of its
    class below its threshold, the body of the loop raises the
    [AssertionError] on the missing coverage: the particle is as before, its
    [pid] included, and the store only has the scratch copy of the scores
    added.  [process] then raises this exception on every event in which the
    loop runs to its end over the particles before this one, and no
    interaction is updated. *)
Theorem properties_uncovered_raises self p h ps1 ps1' h1 :
  length (pid_thresholds_of G self p) ≠ 0%nat →
  (pid_scores p < length h)%nat →
  all_rejected (pid_thresholds_of G self p) (deref h (pid_scores p)) →
  for_particles (properties_body G self) ps1 h = ((ps1', h1), inr tt) →
  ∃ a,
    properties_body G self (p, h1) = ((p, h1 ++ [a]), inl (AssertionError coverage_msg))
    ∧ ∀ ps2 ias,
        properties_process G update_particle_info self (mkEvent (ps1 ++ p :: ps2) ias, h)
        = ((mkEvent (ps1' ++ p :: ps2) ias, h1 ++ [a]),
           inl (AssertionError coverage_msg)).
Proof.
  intros Hlen Hvalid [a Hwalk]%spec_walk_all_rejected Hloop. exists a.
  assert (deref h1 (pid_scores p) = deref h (pid_scores p)) as Hsame.
  { apply (for_particles_frame _ same_but_pid_primary) in Hloop as [_ [extra ->]];
      [|apply same_but_pid_primary_refl|apply properties_body_frame].
    by apply deref_app. }
  assert (properties_body G self (p, h1)
          = ((p, h1 ++ [a]), inl (AssertionError coverage_msg))) as Hbody.
  { unfold properties_body, mbind, M_bind.
    by rewrite adjust_pid_spec_walk, bool_decide_eq_true_2, Hsame, Hwalk. }
  split; [done|]. intros ps2 ias.
  unfold properties_process. cbn [fst snd particles interactions].
  by erewrite for_particles_raise.
Qed.

(** C10.  Whatever [process] does on an event, and also when it raises: every
    particle is as before up to [pid] and [is_primary], so it refers to the
    same arrays, the arrays the store had are all as before, and with them the
    PID scores of every particle; the rescaling of the walk only ever touches
    arrays added to the store. *)
Theorem properties_process_keeps_scores self (ev ev' : Event F I) h h' r :
  Forall (λ p, (pid_scores p < length h)%nat) (particles ev) →
  properties_process G update_particle_info self (ev, h) = ((ev', h'), r) →
  (∃ extra, h' = h ++ extra) ∧
  Forall2 (λ p p',
      same_but_pid_primary p p' ∧
      deref h' (pid_scores p') = deref h (pid_scores p))
    (particles ev) (particles ev').
Proof.
  intros Hvalid Hrun. unfold properties_process, update_interactions in Hrun.
  cbn [fst snd] in Hrun.
  destruct (for_particles _ _ _) as [[ps1 h1] r1] eqn:Hloop.
  apply (for_particles_frame _ same_but_pid_primary) in Hloop as [Hps [extra Hh]];
    [|apply same_but_pid_primary_refl|apply properties_body_frame].
  assert (ev' = mkEvent ps1 (interactions ev') ∧ h' = h1) as [-> ->].
  { by destruct r1 as [e|[]]; injection Hrun as <- <- <-. }
  subst h1. split; [by eexists|]. cbn [particles].
  apply Forall2_same_length_lookup. split; [by eapply Forall2_length|].
  intros i p p' Hp Hp'. split; [by eapply Forall2_lookup_lr|].
  assert (same_but_pid_primary p p') as Hsame by (by eapply Forall2_lookup_lr).
  apply same_but_pid_primary_scores in Hsame as [-> _].
  unfold deref. rewrite lookup_app_l; [done|].
  by eapply (Forall_lookup_1 _ _ _ _ Hvalid).
Qed.
End properties_claims.

(** *** On concrete particles *)

Section properties_examples.
Import Sample.
Local Open Scope float_scope.

(** C4.  The adjuster walks the mapping the shape of a particle selects in
    its order, on a copy of the scores of the particle: the first class whose
    current score is at or above its threshold becomes the [pid] and ends the
    walk, and after every class that is rejected all scores are multiplied by
    [1 / (1 - score)], with the score of that class, before the next entry is
    tested.  So when [process] has run to its end, every particle with a
    mapping that is not empty has as [pid] the class the walk of the
    specification assigns on the scores it had; on one particle, [adjust_pid]
    assigns that class, changes nothing else of the particle and adds the
    scores as the walk left them to the store, and raises when the walk
    assigns none.  On the example of the specification the muon is rejected,
    the scores are multiplied by [1 / (1 - 0.3)] and the [pid] is the pion;
    with a pion threshold of 0.7, which the score 0.6 only passes once it is
    rescaled, the [pid] is the pion as well. *)
Theorem adjust_pid_walks_thresholds :
  (∀ (F : Type) (HA : Arith F) (HF : Floating F) (G : Globals F) (I : Type)
     (update_particle_info : list (Particle F) → Heap F → I → I)
     (self : ParticlePropertiesProcessor F) (ev ev' : Event F I) (h h' : Heap F),
     Forall (λ p, (pid_scores p < length h)%nat) (particles ev) →
     properties_process G update_particle_info self (ev, h) = ((ev', h'), inr tt) →
     Forall2 (λ p p',
         if bool_decide (length (pid_thresholds_of G self p) ≠ 0%nat) then
           ∃ k, walk_class (pid_thresholds_of G self p) (deref h (pid_scores p)) = Some k
                ∧ pid p' = Z.of_nat k
         else pid p' = pid p)
       (particles ev) (particles ev'))
  ∧ (∀ (F : Type) (HA : Arith F) (HF : Floating F) (G : Globals F)
       (self : ParticlePropertiesProcessor F) (p : Particle F) (h : Heap F),
       length (pid_thresholds_of G self p) ≠ 0%nat →
       let ths := pid_thresholds_of G self p in
       let scores := deref h (pid_scores p) in
       match walk_class ths scores with
       | Some k =>
           adjust_pid G self (p, h)
           = ((mkParticle (semantic_type p) (pid_scores p) (primary_scores p)
                 (Z.of_nat k) (is_primary p) (is_contained p) (calo_ke p) (csda_ke p)
                 (mcs_ke p) (start_dir p) (momentum p),
               h ++ [walk_final ths scores]), inr tt)
       | None =>
           ∃ e, adjust_pid G self (p, h) = ((p, h ++ [walk_final ths scores]), inl e)
       end)
  ∧ (let res := properties_process float_globals (@no_update float) example_thresholds
                  (mkEvent [example_track] [], example_store) in
     fgeb 0.3 0.8 = false ∧
     fgeb (0.6 * (1 / (1 - 0.3))) 0.5 = true ∧
     res.2 = inr tt ∧
     map pid (particles res.1.1) = [3%Z] ∧
     res.1.2 = example_store
               ++ [[0; 0; 0.42857142857142855; 0.8571428571428571; 0.14285714285714288]])
  ∧ (let res := properties_process float_globals (@no_update float) rescaling_thresholds
                  (mkEvent [example_track] [], example_store) in
     fgeb 0.6 0.7 = false ∧
     fgeb (0.6 * (1 / (1 - 0.3))) 0.7 = true ∧
     res.2 = inr tt ∧
     map pid (particles res.1.1) = [3%Z]).
Proof.
  split; [|split; [|split]].
  - intros F HA HF G I upd self ev ev' h h' Hvalid Hrun.
    unfold properties_process, update_interactions in Hrun. cbn [fst snd] in Hrun.
    destruct (for_particles _ _ _) as [[ps1 h1] [e|[]]] eqn:Hloop; [done|].
    injection Hrun as <- <-. cbn [particles].
    apply (for_particles_done_inv _
             (λ hx p, (pid_scores p < length h)%nat)) in Hloop as [_ Hall];
      [|done| |done].
    + eapply Forall2_impl; [exact Hall|].
      intros p p' (ha & hb & e1 & e2 & -> & -> & Hp & Hb).
      unfold properties_body, mbind, M_bind in Hb.
      assert (∀ p1 h1, adjust_primary self (p1, h1) = ((p', hb), inr tt) →
                pid p' = pid p1) as Hprim.
      { intros p1 h1. rewrite adjust_primary_cases.
        destruct (primary_threshold self) as [t|]; [|by intros [= <- <-]].
        destruct (deref h1 (primary_scores p1) !! 1%nat); [|done]. by intros [= <- <-]. }
      case_bool_decide as Hlen.
      * pose proof (adjust_pid_walk_class G self p (h ++ e1) Hlen) as Hw.
        cbn zeta in Hw. rewrite deref_app in Hw by done.
        destruct (walk_class _ _) as [k|].
        -- rewrite Hw in Hb. apply Hprim in Hb. by exists k.
        -- destruct Hw as [e Hw]. by rewrite Hw in Hb.
      * rewrite adjust_pid_spec_walk, bool_decide_eq_false_2 in Hb
          by (intros Hne; by apply Hne).
        by apply Hprim in Hb.
    + intros p hx p' hx' _ Hb. by apply properties_body_frame in Hb as [_ ?].
  - intros F HA HF G self p h Hlen. by apply adjust_pid_walk_class.
  - repeat split; vm_compute; reflexivity.
  - repeat split; vm_compute; reflexivity.
Qed.

Lemma adjust_pid_walks_thresholds_witness :
  let ev := mkEvent [example_track] ([] : list unit) in
  let res := properties_process float_globals no_update rescaling_thresholds
               (ev, example_store) in
  Forall2 (λ p p',
      if bool_decide (length (pid_thresholds_of float_globals rescaling_thresholds p)
                      ≠ 0%nat) then
        ∃ k, walk_class (pid_thresholds_of float_globals rescaling_thresholds p)
               (deref example_store (pid_scores p)) = Some k
             ∧ pid p' = Z.of_nat k
      else pid p' = pid p)
    (particles ev) (particles res.1.1).
Proof.
  intros ev res.
  apply (proj1 adjust_pid_walks_thresholds float float_Arith float_Floating
           float_globals unit no_update rescaling_thresholds ev res.1.1
           example_store res.1.2).
  - repeat constructor.
  - vm_compute. reflexivity.
Defined.

Lemma properties_uncovered_raises_witness :
  ∃ a,
    properties_body float_globals uncovered_thresholds (example_track, example_store)
    = ((example_track, example_store ++ [a]), inl (AssertionError coverage_msg))
    ∧ ∀ ps2 ias,
        properties_process float_globals (@no_update float) uncovered_thresholds
          (mkEvent ([shower_electron 45] ++ example_track :: ps2) ias, example_store)
        = ((mkEvent ([shower_electron 45] ++ example_track :: ps2) ias,
            example_store ++ [a]),
           inl (AssertionError coverage_msg)).
Proof.
  apply (properties_uncovered_raises float_globals no_update uncovered_thresholds
           example_track example_store [shower_electron 45] [shower_electron 45]
           example_store).
  - vm_compute. discriminate.
  - vm_compute. lia.
  - eexists. split; [reflexivity|]. split; [reflexivity|].
    eexists. split; [reflexivity|]. split; [reflexivity|]. exact Logic.I.
  - vm_compute. reflexivity.
Defined.

Lemma properties_process_keeps_scores_witness :
  let ev := mkEvent [example_track] ([] : list unit) in
  let res := properties_process float_globals no_update example_thresholds
               (ev, example_store) in
  map pid (particles res.1.1) = [3%Z] ∧
  (∃ extra, res.1.2 = example_store ++ extra) ∧
  Forall2 (λ p p',
      same_but_pid_primary p p' ∧
      deref res.1.2 (pid_scores p') = deref example_store (pid_scores p))
    (particles ev) (particles res.1.1).
Proof.
  intros ev res. split; [vm_compute; reflexivity|].
  apply (properties_process_keeps_scores float_globals no_update example_thresholds
           ev res.1.1 example_store res.1.2 res.2).
  - repeat constructor.
  - vm_compute. reflexivity.
Defined.
End properties_examples.

(** ** ParticleSemanticsProcessor *)


Section semantics.
Context {F : Type} `{Arith F}.
Context (G : Globals F).
Implicit Types (self : ParticleSemanticsProcessor) (p : Particle F) (h : Heap F).

(** Resetting the PID scores: a [KeyError] for a shape the table does not
    have; otherwise the particle refers to a new array, which holds its old
    scores masked to the allowed classes and divided by their sum. *)
Lemma reset_pid_scores_cases p h :
  reset_pid_scores G (p, h) =
    match SHP_TO_PID G !! semantic_type p with
    | None => ((p, h), inl KeyError)
    | Some r =>
        ((set_pid_scores (length h) p,
          h ++ [renormalised r (deref h (pid_scores p))]), inr tt)
    end.
Proof.
  unfold reset_pid_scores. run.
  destruct (SHP_TO_PID G !! semantic_type p) as [r|]; [|done]. run.
  set (old := deref h (pid_scores p)).
  destruct (np_put_take_mask old (np_below r (length old)))
    as (vals & -> & Hput); [apply np_below_in_range|].
  run. unfold alloc. cbn [fst snd]. rewrite !deref_new, Hput. run.
  repeat rewrite ?store_new, ?deref_new.
  unfold renormalised, masked_mass. by rewrite mask_below.
Qed.

(** Resetting the primary scores: as for the PID scores, but the allowed
    labels are used as they are, and one that the array does not have raises
    an [IndexError], after the array of zeros was created. *)
Lemma reset_primary_scores_cases p h :
  reset_primary_scores G (p, h) =
    match SHP_TO_PRIMARY G !! semantic_type p with
    | None => ((p, h), inl KeyError)
    | Some r =>
        let old := deref h (primary_scores p) in
        if bool_decide (Forall (λ i, (i < length old)%nat) r)
        then ((set_primary_scores (length h) p, h ++ [renormalised r old]), inr tt)
        else ((p, h ++ [np_zeros (length old)]), inl IndexError)
    end.
Proof.
  unfold reset_primary_scores. run.
  destruct (SHP_TO_PRIMARY G !! semantic_type p) as [r|]; [|done]. run.
  set (old := deref h (primary_scores p)). cbn zeta.
  case_bool_decide as Hr.
  - destruct (np_put_take_mask old r) as (vals & -> & Hput); [done|].
    run. unfold alloc. cbn [fst snd]. rewrite !deref_new, Hput. run.
    by repeat rewrite ?store_new, ?deref_new.
  - rewrite np_take_out_of_range by done. by run.
Qed.

(** The body of the loop of [process]. *)
Lemma semantics_body_cases self p h :
  semantics_body G self (p, h) =
    match (if enforce_pid self then reset_pid_scores G (p, h) else ((p, h), inr tt)) with
    | (s, inl e) => (s, inl e)
    | (s, inr _) => if enforce_primary self then reset_primary_scores G s else (s, inr tt)
    end.
Proof.
  unfold semantics_body. run.
  destruct (enforce_pid self), (enforce_primary self); try done;
    by destruct (reset_pid_scores G (p, h)) as [s [e|[]]].
Qed.
End semantics.

(** *** The loop of [process] over the particles *)

Section semantics_loop.
Context {F : Type} `{Arith F}.
Context (G : Globals F).
Context {I : Type} (update_particle_info : list (Particle F) → Heap F → I → I).
Implicit Types (self : ParticleSemanticsProcessor) (p : Particle F) (h : Heap F).

Lemma same_but_scores_refl p : same_but_scores p p.
Proof. by destruct p. Qed.

Lemma same_but_scores_shape p p' :
  same_but_scores p p' → semantic_type p' = semantic_type p.
Proof. unfold same_but_scores. by intros ->. Qed.

Lemma valid_refs_app h extra p : valid_refs h p → valid_refs (h ++ extra) p.
Proof. unfold valid_refs. rewrite length_app. lia. Qed.

(** The body of the loop: when it ends without an exception, from a store
    that has the arrays of the particle. *)
Lemma semantics_body_done self p h p' h' :
  valid_refs h p →
  semantics_body G self (p, h) = ((p', h'), inr tt) →
  (∃ extra, h' = h ++ extra) ∧ scores_reset G self h p h' p'.
Proof.
  intros [Hpid Hprim]. rewrite semantics_body_cases. unfold scores_reset.
  destruct (enforce_pid self).
  - rewrite reset_pid_scores_cases.
    destruct (SHP_TO_PID G !! semantic_type p) as [r|] eqn:Hr; [|done].
    destruct (enforce_primary self).
    + rewrite reset_primary_scores_cases. cbn [semantic_type set_pid_scores primary_scores].
      destruct (SHP_TO_PRIMARY G !! semantic_type p) as [r'|] eqn:Hr'; [|done].
      cbn zeta. rewrite deref_app by done.
      case_bool_decide as Hin; [|done]. intros [= <- <-].
      split; [by eexists (_ :: _ :: nil); rewrite <- app_assoc|].
      cbn [pid_scores primary_scores set_pid_scores set_primary_scores].
      split; [unfold valid_refs; rewrite !length_app; simpl; lia|].
      split; [by destruct p|]. split.
      * exists r. split; [done|].
        rewrite deref_app by (rewrite length_app; simpl; lia). apply deref_new.
      * exists r'. split; [done|]. split; [done|]. apply deref_new.
    + intros [= <- <-]. split; [by eexists|].
      cbn [pid_scores primary_scores set_pid_scores].
      split; [unfold valid_refs; rewrite !length_app; simpl; lia|].
      split; [by destruct p|]. split.
      * exists r. split; [done|]. apply deref_new.
      * by apply deref_app.
  - destruct (enforce_primary self).
    + rewrite reset_primary_scores_cases.
      destruct (SHP_TO_PRIMARY G !! semantic_type p) as [r'|] eqn:Hr'; [|done].
      cbn zeta. case_bool_decide as Hin; [|done]. intros [= <- <-].
      split; [by eexists|].
      cbn [pid_scores primary_scores set_primary_scores].
      split; [unfold valid_refs; rewrite !length_app; simpl; lia|].
      split; [by destruct p|]. split.
      * by apply deref_app.
      * exists r'. split; [done|]. split; [done|]. apply deref_new.
    + intros [= <- <-]. split; [exists []; by rewrite app_nil_r|].
      split; [done|]. split; [apply same_but_scores_refl|done].
Qed.

(** The body ends without an exception on every particle that is
    resettable. *)
Lemma semantics_body_completes self p h :
  resettable G self h p →
  ∃ p' h', semantics_body G self (p, h) = ((p', h'), inr tt).
Proof.
  intros [Hpid Hprim]. rewrite semantics_body_cases.
  destruct (enforce_pid self).
  - rewrite reset_pid_scores_cases. destruct Hpid as [r ->]; [done|].
    destruct (enforce_primary self); [|by eexists _, _].
    rewrite reset_primary_scores_cases. cbn [semantic_type set_pid_scores primary_scores].
    destruct Hprim as (r' & -> & Hin); [done|]. cbn zeta.
    destruct (decide (primary_scores p < length h)%nat) as [Hlt|Hge].
    + rewrite deref_app by done. rewrite bool_decide_eq_true_2 by done. by eexists _, _.
    + rewrite bool_decide_eq_true_2; [by eexists _, _|].
      unfold deref in Hin. rewrite lookup_ge_None_2 in Hin by lia. simpl in Hin.
      eapply Forall_impl; [exact Hin|]. simpl. lia.
  - destruct (enforce_primary self); [|by eexists _, _].
    rewrite reset_primary_scores_cases.
    destruct Hprim as (r' & -> & Hin); [done|]. cbn zeta.
    rewrite bool_decide_eq_true_2 by done. by eexists _, _.
Qed.
(** [scores_reset] between intermediate stores is [scores_reset] between the
    initial and the final store. *)
Lemma scores_reset_app self h e1 p hb e2 p' :
  valid_refs h p →
  scores_reset G self (h ++ e1) p hb p' →
  scores_reset G self h p (hb ++ e2) p'.
Proof.
  intros [Hpid Hprim] ([Hpid' Hprim'] & Hsame & Hp & Hq).
  split; [by apply valid_refs_app|]. split; [done|].
  rewrite !(deref_app hb) by done. rewrite !deref_app in Hp, Hq by done. done.
Qed.

(** When [process] has run to its end, the scores of every particle are
    reset. *)
Lemma semantics_process_done self (ev ev' : Event F I) h h' :
  Forall (valid_refs h) (particles ev) →
  semantics_process G update_particle_info self (ev, h) = ((ev', h'), inr tt) →
  (∃ extra, h' = h ++ extra) ∧
  Forall2 (λ p p', scores_reset G self h p h' p') (particles ev) (particles ev').
Proof.
  intros Hvalid Hrun. unfold semantics_process, update_interactions in Hrun.
  cbn [fst snd] in Hrun.
  destruct (for_particles _ _ _) as [[ps1 h1] [e|[]]] eqn:Hloop; [done|].
  injection Hrun as <- <-. cbn [particles].
  apply (for_particles_done_inv _
           (λ hx p, (∃ e, hx = h ++ e) ∧ valid_refs h p)) in Hloop as [Hext Hall].
  - split; [done|]. eapply Forall2_impl; [exact Hall|].
    intros p p' (ha & hb & e1 & e2 & -> & -> & [_ Hp] & Hb).
    apply semantics_body_done in Hb as [_ Hb]; [|by apply valid_refs_app].
    by eapply scores_reset_app.
  - intros p hx extra [[e ->] Hp]. split; [|done]. exists (e ++ extra). by rewrite app_assoc.
  - intros p hx p' hx' [[e ->] Hp] Hb.
    by apply semantics_body_done in Hb as [Hb _]; [|by apply valid_refs_app].
  - eapply Forall_impl; [exact Hvalid|]. intros p Hp. split; [|done].
    exists []. by rewrite app_nil_r.
Qed.

Lemma resettable_app self h extra p :
  valid_refs h p → resettable G self h p → resettable G self (h ++ extra) p.
Proof.
  intros [_ Hprim] [Hp Hq]. split; [done|]. by rewrite deref_app.
Qed.

(** [process] runs to its end on an event whose particles are all
    resettable. *)
Lemma semantics_process_completes self (ev : Event F I) h :
  Forall (valid_refs h) (particles ev) →
  Forall (resettable G self h) (particles ev) →
  ∃ ev' h', semantics_process G update_particle_info self (ev, h) = ((ev', h'), inr tt).
Proof.
  intros Hvalid Hres. unfold semantics_process, update_interactions. cbn [fst snd].
  destruct (for_particles_completes (semantics_body G self)
              (λ hx p, valid_refs hx p ∧ resettable G self hx p)
              (particles ev) h) as (ps' & h' & ->).
  - intros p hx extra [Hp Hr]. split; [by apply valid_refs_app|by apply resettable_app].
  - intros p hx [Hp Hr].
    destruct (semantics_body_completes self p hx Hr) as (p' & hx' & Hb).
    destruct (semantics_body_done self p hx p' hx' Hp Hb) as [[extra ->] _].
    by eexists _, _.
  - apply Forall_and. done.
  - by eexists _, _.
Qed.
End semantics_loop.

(** *** Masking and renormalising, rounding by rounding *)

Section rounding.
Context {F : Type} `{Rounded F}.
Local Open Scope Q_scope.
Local Abbreviation lo := round_lo.
Local Abbreviation hi := round_hi.
Implicit Types (a m : list F) (r : list nat) (x y s : F).

Lemma qpow_pos q n : 0 < q → 0 < qpow q n.
Proof. intros Hq. induction n as [|n IH]; simpl; [lra|nra]. Qed.

Lemma qpow_div p q n : ¬ q == 0 → qpow (p / q) n == qpow p n / qpow q n.
Proof.
  intros Hq. induction n as [|n IH]; simpl; [reflexivity|].
  assert (¬ qpow q n == 0).
  { clear IH. induction n as [|n IH]; simpl; [done|].
    intros Hz. apply Qmult_integral in Hz as [?|?]; done. }
  rewrite IH. field. done.
Qed.

Lemma total_nonneg (l : list Q) : Forall (λ q, 0 <= q) l → 0 <= total l.
Proof. induction 1 as [|q l Hq _ IH]; simpl; lra. Qed.

Lemma total_cons q (l : list Q) : total (q :: l) = q + total l.
Proof. reflexivity. Qed.

Lemma Forall_nonneg_val a : Forall nonneg a → Forall (λ q, 0 <= q) (val <$> a).
Proof. intros Ha. apply Forall_fmap. eapply Forall_impl; [exact Ha|]. by intros x [_ ?]. Qed.

Lemma Qdiv_le_compat_l (p q q' : Q) : 0 <= p → 0 < q → q <= q' → p / q' <= p / q.
Proof.
  intros Hp Hq Hq'. apply Qle_shift_div_l; [done|].
  assert (0 < q') by lra.
  apply Qle_trans with ((p * q) / q'); [apply Qle_lteq; right; field; lra|].
  apply Qle_shift_div_r; [done|]. nra.
Qed.

(** The sum the dtype computes is within one factor per entry of the exact
    sum. *)
Lemma fold_bounds l : ∀ c,
  0 <= val c → Forall nonneg l → sums_ok c l →
  qpow lo (length l) * (val c + total (val <$> l)) <= val (foldl fadd c l)
  ∧ val (foldl fadd c l) <= qpow hi (length l) * (val c + total (val <$> l)).
Proof.
  induction l as [|x l IH]; intros c Hc Hl Hok.
  - simpl. lra.
  - cbn [foldl length qpow]. rewrite fmap_cons, total_cons.
    apply Forall_cons in Hl as [[_ Hx] Hl].
    destruct Hok as [(_ & Hlo & Hhi) Hok].
    pose proof round_lo_pos. pose proof round_lo_le. pose proof round_hi_ge.
    assert (0 <= val (fadd c x)) by nra.
    destruct (IH (fadd c x)) as [IHlo IHhi]; [done..|].
    pose proof (qpow_pos lo (length l) round_lo_pos).
    assert (0 < qpow hi (length l)) by (apply qpow_pos; lra).
    assert (0 <= total (val <$> l)) by by apply total_nonneg, Forall_nonneg_val.
    set (T := total (val <$> l)) in *. set (P := qpow lo (length l)) in *.
    set (R := qpow hi (length l)) in *. clearbody T P R.
    assert (lo * (val c + (val x + T)) <= val (fadd c x) + T) as Hlo' by nra.
    assert (val (fadd c x) + T <= hi * (val c + (val x + T))) as Hhi' by nra.
    split.
    + eapply Qle_trans; [|exact IHlo].
      apply Qle_trans with (P * (lo * (val c + (val x + T))));
        [apply Qle_lteq; right; ring|by apply Qmult_le_l].
    + eapply Qle_trans; [exact IHhi|].
      apply Qle_trans with (R * (hi * (val c + (val x + T))));
        [by apply Qmult_le_l|apply Qle_lteq; right; ring].
Qed.

Lemma total_imap_val a : ∀ g : nat → bool,
  total (val <$> imap (λ i x, if g i then x else f0) a)
  == total (imap (λ i x, if g i then val x else 0) a).
Proof.
  induction a as [|x a IH]; intros g; [reflexivity|].
  rewrite !imap_cons, fmap_cons, !total_cons.
  apply Qplus_comp; [|apply (IH (g ∘ S))].
  destruct (g 0%nat); [reflexivity|apply val_f0].
Qed.

(** The exact sum of the masked vector is the exact sum of the allowed
    entries. *)
Lemma mask_total r a : total (val <$> mask r a) == allowed_mass r a.
Proof. apply (total_imap_val a (λ i, bool_decide (i ∈ r))). Qed.

Lemma total_imap_outside a : ∀ g : nat → bool,
  (∀ (i : nat) x, g i = false → a !! i = Some x → val x == 0) →
  total (imap (λ i x, if g i then val x else 0) a) == total (val <$> a).
Proof.
  induction a as [|x a IH]; intros g Hg; [reflexivity|].
  rewrite !imap_cons, fmap_cons, !total_cons.
  apply Qplus_comp.
  - destruct (g 0%nat) eqn:Hg0; [reflexivity|]. symmetry. by apply (Hg 0%nat).
  - apply (IH (g ∘ S)). intros i y Hi Hy. by apply (Hg (S i)).
Qed.

(** When there is nothing outside the allowed labels, the sum of the allowed
    entries is the sum of the entries. *)
Lemma allowed_mass_total r a :
  (∀ (i : nat) x, i ∉ r → a !! i = Some x → val x == 0) →
  allowed_mass r a == total (val <$> a).
Proof.
  intros Hout. apply (total_imap_outside a (λ i, bool_decide (i ∈ r))).
  intros i x Hi. apply Hout. by apply bool_decide_eq_false in Hi.
Qed.

Lemma mask_nonneg r a : Forall nonneg a → Forall nonneg (mask r a).
Proof.
  intros Ha. apply Forall_lookup. intros i y. unfold mask.
  rewrite list_lookup_imap. destruct (a !! i) as [x|] eqn:Hx; intros [= <-].
  case_bool_decide; [by eapply (Forall_lookup_1 _ _ _ _ Ha)|].
  split; [apply finite_f0|]. rewrite val_f0. lra.
Qed.

(** The sum the scores are divided by. *)
Lemma masked_mass_bounds r a :
  well_rounded r a →
  qpow lo (length a) * allowed_mass r a <= val (masked_mass r a)
  ∧ val (masked_mass r a) <= qpow hi (length a) * allowed_mass r a
  ∧ 0 < val (masked_mass r a).
Proof.
  intros (Ha & HM & Hsum & _). unfold masked_mass, np_sum.
  destruct (fold_bounds (mask r a) f0) as [Hlo Hhi];
    [rewrite val_f0; lra|by apply mask_nonneg|done|].
  rewrite val_f0, mask_total, length_mask in Hlo, Hhi.
  pose proof (qpow_pos lo (length a) round_lo_pos).
  set (M := allowed_mass r a) in *. set (P := qpow lo (length a)) in *.
  set (R := qpow hi (length a)) in *. clearbody M P R.
  repeat split; [lra|lra|]. nra.
Qed.

(** The quotients: each is a number that is not negative, and together they
    sum to the exact sum of the dividends over the divisor, up to one
    rounding. *)
Lemma np_idiv_total m s :
  Forall nonneg m → 0 < val s → Forall (λ x, div_ok x s) m →
  Forall nonneg (np_idiv m s)
  ∧ lo * (total (val <$> m) / val s) <= total (val <$> np_idiv m s)
  ∧ total (val <$> np_idiv m s) <= hi * (total (val <$> m) / val s).
Proof.
  intros Hm Hs Hdiv. unfold np_idiv. change (map ?f ?l) with (f <$> l).
  pose proof round_lo_pos.
  induction Hm as [|x m [_ Hx] _ IH].
  - split; [constructor|]. cbn. unfold Qdiv. split; apply Qle_lteq; right; ring.
  - apply Forall_cons in Hdiv as [(Hfin & Hlo & Hhi) Hdiv].
    destruct (IH Hdiv) as (IHnn & IHlo & IHhi).
    assert (0 <= val x / val s) by (apply Qle_shift_div_l; [done|lra]).
    rewrite !fmap_cons, !total_cons. split; [|split].
    + constructor; [|done]. split; [done|]. nra.
    + apply Qle_trans with (lo * (val x / val s)
                            + lo * (total (val <$> m) / val s));
        [apply Qle_lteq; right; field; lra|]. lra.
    + apply Qle_trans with (hi * (val x / val s)
                            + hi * (total (val <$> m) / val s));
        [lra|apply Qle_lteq; right; field; lra].
Qed.

Lemma accurate_div r a :
  accurate r a → Forall (λ x, div_ok x (masked_mass r a)) (mask r a).
Proof. by intros [_ ?]. Qed.

(** The renormalised scores are a distribution on the allowed labels within
    the tolerance of the rounding. *)
Lemma renormalised_within r a :
  well_rounded r a → within_tolerance r (renormalised r a).
Proof.
  intros Hwr. destruct (masked_mass_bounds r a Hwr) as (Hlo & Hhi & Hs).
  destruct Hwr as (Ha & HM & Hacc). apply accurate_div in Hacc.
  destruct (np_idiv_total (mask r a) (masked_mass r a)) as (Hnn & Tlo & Thi);
    [by apply mask_nonneg|done..|].
  fold (renormalised r a) in Hnn, Tlo, Thi. rewrite mask_total in Tlo, Thi.
  pose proof round_lo_pos. pose proof round_hi_ge.
  pose proof (qpow_pos lo (length a) round_lo_pos).
  assert (0 < qpow hi (length a)) by (apply qpow_pos; lra).
  assert (lo / qpow hi (length a) <= total (val <$> renormalised r a)
          ∧ total (val <$> renormalised r a) <= hi / qpow lo (length a))
    as [Tlo' Thi'].
  { set (M := allowed_mass r a) in *. set (P := qpow lo (length a)) in *.
    set (R := qpow hi (length a)) in *. set (vs := val (masked_mass r a)) in *.
    set (T := total _) in *. clearbody M P R vs T.
    assert (/ R <= M / vs).
    { apply Qle_shift_div_l; [done|].
      apply Qle_trans with (/ R * (R * M)); [apply Qmult_le_l; [by apply Qinv_lt_0_compat|done]|].
      apply Qle_lteq; right; field; lra. }
    assert (M / vs <= / P).
    { apply Qle_shift_div_r; [done|].
      apply Qle_trans with (/ P * (P * M)); [apply Qle_lteq; right; field; lra|].
      apply Qmult_le_l; [by apply Qinv_lt_0_compat|done]. }
    set (q := M / vs) in *. clearbody q. unfold Qdiv.
    set (iR := / R) in *. set (iP := / P) in *. clearbody iR iP. split; nra. }
  rewrite <- (length_renormalised r a) in *.
  split; [|split; [done|split; [done|split; [done|]]]].
  - intros i o Hi. unfold renormalised, np_idiv, mask.
    change (map ?f ?l) with (f <$> l).
    rewrite list_lookup_fmap, list_lookup_imap, bool_decide_eq_false_2 by done.
    destruct (a !! i) as [x|] eqn:Hx; intros [= <-].
    assert (div_ok f0 (masked_mass r a)) as (_ & Olo & Ohi).
    { eapply (Forall_lookup_1 _ _ i _ Hacc). unfold mask.
      by rewrite list_lookup_imap, Hx, bool_decide_eq_false_2. }
    rewrite val_f0 in Olo, Ohi.
    assert (0 / val (masked_mass r a) == 0) as Hz by (unfold Qdiv; ring).
    rewrite Hz in Olo, Ohi. lra.
  - intros Hsum. destruct (fold_bounds (renormalised r a) f0) as [Slo Shi];
      [rewrite val_f0; lra|done..|].
    fold (np_sum (renormalised r a)) in Slo, Shi. rewrite val_f0 in Slo, Shi.
    split.
    + eapply Qle_trans; [|exact Slo]. apply Qmult_le_l; [done|lra].
    + eapply Qle_trans; [exact Shi|]. apply Qmult_le_l; [done|lra].
Qed.

(** One renormalised score, against the exact quotient of the score by the
    weight on the allowed labels. *)
Lemma renormalised_entry r a (i : nat) x :
  well_rounded r a → mask r a !! i = Some x →
  ∃ o, renormalised r a !! i = Some o ∧
       lo * val x <= val o * (qpow hi (length a) * allowed_mass r a) ∧
       val o * (qpow lo (length a) * allowed_mass r a) <= hi * val x.
Proof.
  intros Hwr Hx. destruct (masked_mass_bounds r a Hwr) as (Hlo & Hhi & Hs).
  destruct Hwr as (Ha & HM & Hacc). apply accurate_div in Hacc.
  exists (fdiv x (masked_mass r a)). split.
  { unfold renormalised, np_idiv. change (map ?f ?l) with (f <$> l).
    by rewrite list_lookup_fmap, Hx. }
  destruct (Forall_lookup_1 _ _ _ _ Hacc Hx) as (_ & Olo & Ohi).
  destruct (Forall_lookup_1 _ _ _ _ (mask_nonneg r a Ha) Hx) as [_ Hxnn].
  pose proof round_lo_pos. pose proof round_hi_ge.
  assert (val x / val (masked_mass r a) * val (masked_mass r a) == val x) as Hq
    by (field; lra).
  assert (0 <= val x / val (masked_mass r a)) by (apply Qle_shift_div_l; [done|lra]).
  set (M := allowed_mass r a) in *. set (P := qpow lo (length a)) in *.
  set (R := qpow hi (length a)) in *. set (vs := val (masked_mass r a)) in *.
  set (q := val x / vs) in *. set (vo := val (fdiv x _)) in *.
  set (vx := val x) in *. clearbody M P R vs q vo vx.
  assert (0 <= vo) by nra.
  split.
  - apply Qle_trans with (vo * vs); [|nra]. nra.
  - apply Qle_trans with (vo * vs); [nra|]. nra.
Qed.

(** Renormalising what is renormalised leaves every score within the
    factor of the roundings. *)
Lemma renormalised_close r a :
  well_rounded r a → accurate r (renormalised r a) →
  well_rounded r (renormalised r a)
  ∧ close (renormalised r a) (renormalised r (renormalised r a)).
Proof.
  intros Hwr Hacc. destruct (renormalised_within r a Hwr) as (Hout & Hnn & Tlo & Thi & _).
  pose proof round_lo_pos as Hlo0. pose proof round_hi_ge as Hhi1.
  pose proof (qpow_pos lo (length a) round_lo_pos) as HP.
  assert (0 < qpow hi (length a)) as HR by (apply qpow_pos; lra).
  rewrite length_renormalised in Tlo, Thi.
  rewrite <- (allowed_mass_total r) in Tlo, Thi by done.
  assert (0 < lo / qpow hi (length a)) by (apply Qlt_shift_div_l; lra).
  assert (well_rounded r (renormalised r a)) as Hwr'.
  { split; [done|]. split; [lra|done]. }
  split; [done|].
  unfold close. rewrite length_renormalised.
  apply Forall2_same_length_lookup_2; [by rewrite !length_renormalised|].
  intros i y z Hy Hz.
  assert (∃ x', mask r (renormalised r a) !! i = Some x' ∧ val x' == val y)
    as (x' & Hx' & Hval).
  { unfold mask at 1. rewrite list_lookup_imap, Hy. simpl.
    case_bool_decide as Hi; [by eexists|]. eexists. split; [done|].
    rewrite val_f0. symmetry. by eapply Hout. }
  destruct (renormalised_entry r _ i x' Hwr' Hx') as (z' & Hz' & Zlo & Zhi).
  rewrite Hz in Hz'. injection Hz' as <-.
  rewrite length_renormalised, Hval in Zlo, Zhi.
  destruct (Forall_lookup_1 _ _ _ _ Hnn Hy) as [_ Hynn].
  assert (0 <= val z) as Hznn.
  { destruct (renormalised_within r _ Hwr') as (_ & Hnn' & _).
    by destruct (Forall_lookup_1 _ _ _ _ Hnn' Hz). }
  rewrite qpow_div by lra. cbn [qpow].
  set (My := allowed_mass r (renormalised r a)) in *.
  set (P := qpow lo (length a)) in *. set (R := qpow hi (length a)) in *.
  set (vy := val y) in *. set (vz := val z) in *. clearbody My P R vy vz.
  assert (lo <= My * R) as Mlo.
  { apply Qle_trans with (lo / R * R); [apply Qle_lteq; right; field; lra|].
    by apply Qmult_le_r. }
  assert (My * P <= hi) as Mhi.
  { apply Qle_trans with (hi / P * P); [by apply Qmult_le_r|].
    apply Qle_lteq; right; field; lra. }
  assert (0 < lo * P) by nra. assert (0 <= vz * R) by nra. assert (0 <= vz * P) by nra.
  assert (lo * P * vy <= hi * R * vz).
  { apply Qle_trans with (vz * R * (My * P)); [|nra].
    apply Qle_trans with (P * (vz * (R * My))); [|apply Qle_lteq; right; ring].
    apply Qle_trans with (P * (lo * vy)); [apply Qle_lteq; right; ring|].
    by apply Qmult_le_l. }
  assert (lo * P * vz <= hi * R * vy).
  { apply Qle_trans with (vz * P * (My * R)); [nra|].
    apply Qle_trans with (R * (vz * (P * My))); [apply Qle_lteq; right; ring|].
    apply Qle_trans with (R * (hi * vy)); [|apply Qle_lteq; right; ring].
    by apply Qmult_le_l. }
  split.
  - apply Qle_trans with (hi * R * vz / (lo * P)).
    + apply Qle_shift_div_l; [done|]. lra.
    + apply Qle_lteq; right; field; lra.
  - apply Qle_trans with (hi * R * vy / (lo * P)).
    + apply Qle_shift_div_l; [done|]. lra.
    + apply Qle_lteq; right; field; lra.
Qed.
End rounding.

(** *** Exact arithmetic *)

Section exact_rounding.
Local Open Scope Q_scope.
Implicit Types (a : list Qc) (r : list nat).

Lemma qpow_1 n : qpow 1 n == 1.
Proof. induction n as [|n IH]; simpl; [reflexivity|]. rewrite IH. reflexivity. Qed.

(** In exact arithmetic every operation is accurate. *)
Lemma exact_add_ok (x y : Qc) : add_ok x y.
Proof.
  split; [done|]. cbn [val round_lo round_hi fadd Qc_Rounded Qc_Arith].
  unfold Qcplus, Q2Qc. cbn [this]. rewrite Qred_correct. lra.
Qed.

Lemma exact_div_ok (x y : Qc) : div_ok x y.
Proof.
  split; [done|]. cbn [val round_lo round_hi fdiv Qc_Rounded Qc_Arith].
  unfold Qcdiv, Qcmult, Qcinv, Q2Qc. cbn [this]. rewrite !Qred_correct.
  unfold Qdiv. lra.
Qed.

Lemma exact_accurate r a : accurate r a.
Proof.
  split.
  - generalize (f0 : Qc). induction (mask r a) as [|x m IH]; intros c; [done|].
    split; [apply exact_add_ok|apply IH].
  - apply Forall_forall. intros x _. apply exact_div_ok.
Qed.

(** So scores that were not negative and had weight on the allowed labels
    are renormalised to scores that are zero outside the allowed labels and
    sum to one, and renormalising these again gives the same scores. *)
Lemma exact_renormalised r a :
  Forall (λ x : Qc, 0 <= x) a → 0 < allowed_mass r a →
  (∀ (i : nat) x, i ∉ r → renormalised r a !! i = Some x → x = 0%Qc) ∧
  total (this <$> renormalised r a) == 1 ∧
  renormalised r (renormalised r a) = renormalised r a.
Proof.
  intros Ha HM.
  assert (well_rounded r a) as Hwr.
  { split; [|split; [done|apply exact_accurate]].
    eapply Forall_impl; [exact Ha|]. by intros x Hx. }
  destruct (renormalised_within r a Hwr) as (Hout & _ & Tlo & Thi & _).
  destruct (renormalised_close r a Hwr (exact_accurate _ _)) as [_ Hclose].
  cbn [val round_lo round_hi Qc_Rounded] in *.
  split; [|split].
  - intros i x Hi Hx. apply Qc_is_canon. by apply (Hout i).
  - rewrite qpow_1 in Tlo, Thi. change (1 / 1) with 1 in Tlo, Thi.
    by apply Qle_antisym.
  - symmetry. apply list_eq_Forall2. eapply Forall2_impl; [exact Hclose|].
    intros x y [Hxy Hyx]. apply Qc_is_canon.
    cbn [val round_lo round_hi Qc_Rounded] in Hxy, Hyx.
    change (1 / 1) with 1 in Hxy, Hyx. rewrite qpow_1 in Hxy, Hyx.
    apply Qle_antisym; lra.
Qed.
End exact_rounding.

(** *** Binary64: the sign of a quotient *)

Section float_division.
Local Open Scope float_scope.

Lemma float_div_zero (s : float) : PrimFloat.ltb 0 s = true → 0 / s = 0.
Proof.
  rewrite ltb_spec. intros Hs.
  rewrite <- (SF2Prim_Prim2SF (0 / s)), div_spec.
  change (Prim2SF 0) with (S754_zero false) in *.
  by destruct (Prim2SF s) as [[]|[]| |[] m e].
Qed.

Lemma binary_round_aux_sign prec emax sx mx ex lx :
  SFltb (binary_round_aux prec emax sx mx ex lx) (S754_zero false) = true → sx = true.
Proof.
  unfold binary_round_aux.
  destruct (shr_fexp _ _ _ _ _) as [mrs' e'].
  destruct (shr_fexp _ _ _ _ _) as [mrs'' e''].
  destruct (shr_m mrs''); [by destruct sx| |done].
  by destruct (Z.leb _ _), sx.
Qed.

Lemma float_div_not_neg (x s : float) :
  PrimFloat.leb 0 x = true → PrimFloat.ltb 0 s = true → PrimFloat.ltb (x / s) 0 = false.
Proof.
  rewrite leb_spec, !ltb_spec, div_spec. unfold SF64div.
  change (Prim2SF 0) with (S754_zero false).
  destruct (Prim2SF x) as [[]|[]| |[] mx ex], (Prim2SF s) as [[]|[]| |[] ms es];
    try done.
  intros _ _. unfold SFdiv. destruct (SFdiv_core_binary _ _ _ _ _ _) as [[mz ez] lz].
  destruct (SFltb _ _) eqn:Hlt; [|done]. by apply binary_round_aux_sign in Hlt.
Qed.

(** Binary64, whatever the rounding: when the sum under the mask is above
    zero, the renormalised scores are zero outside the allowed labels, and
    none is below zero if none was. *)
Lemma renormalised_float r (a : list float) :
  fgtb (masked_mass r a) f0 = true →
  (∀ (i : nat) x, i ∉ r → renormalised r a !! i = Some x → x = 0) ∧
  (Forall (λ x, fgeb x f0 = true) a →
   Forall (λ x, fltb x f0 = false) (renormalised r a)).
Proof.
  intros Hs. split.
  - intros i o Hi. unfold renormalised, np_idiv, mask.
    change (map ?f ?l) with (f <$> l).
    rewrite list_lookup_fmap, list_lookup_imap, bool_decide_eq_false_2 by done.
    destruct (a !! i) as [x|] eqn:Hx; intros [= <-]. by apply float_div_zero.
  - intros Ha. apply Forall_lookup. intros i o. unfold renormalised, np_idiv, mask.
    change (map ?f ?l) with (f <$> l).
    rewrite list_lookup_fmap, list_lookup_imap.
    destruct (a !! i) as [x|] eqn:Hx; intros [= <-].
    apply float_div_not_neg; [|done].
    case_bool_decide; [|done]. by apply (Forall_lookup_1 _ _ _ _ Ha Hx).
Qed.
End float_division.

(** *** The scores after [process] *)

(** C3.  When [process] has run to its end with both flags set, the PID
    scores and the primary scores of every particle are those of a
    distribution on the labels its shape allows, within the tolerance of the
    rounding.  In any dtype: if the old scores were numbers, none negative,
    with weight on the allowed labels, and the additions and divisions the
    renormalisation made were accurate within the factors [round_lo] and
    [round_hi], then the new scores are zero outside the allowed labels, are
    numbers of which none is negative, and their exact sum is between
    [round_lo / round_hi ^ n] and [round_hi / round_lo ^ n] for [n] scores:
    one in exact arithmetic, and one within [(n + 1) * 2^-53] and terms of
    higher order in binary64; and what [np.sum] computes for them is within
    another factor [round_lo ^ n] and [round_hi ^ n] of that, if its
    additions are accurate in turn.  In binary64, with nothing assumed of the
    rounding: if the sum the code computed under the mask is above zero,
    the new scores are zero outside the allowed labels, and none is below
    zero if none of the old ones was. *)
Theorem semantics_scores_consistent :
  (∀ F (HA : Arith F) (HR : Rounded F) (G : Globals F) I
     (update_particle_info : list (Particle F) → Heap F → I → I)
     (ev ev' : Event F I) (h h' : Heap F),
     Forall (valid_refs h) (particles ev) →
     semantics_process G update_particle_info (mkSemantics true true) (ev, h)
     = ((ev', h'), inr tt) →
     reset_scores (λ r old new, well_rounded r old → within_tolerance r new)
       G ev ev' h h')
  ∧ (∀ (G : Globals float) I
       (update_particle_info : list (Particle float) → Heap float → I → I)
       (ev ev' : Event float I) (h h' : Heap float),
       Forall (valid_refs h) (particles ev) →
       semantics_process G update_particle_info (mkSemantics true true) (ev, h)
       = ((ev', h'), inr tt) →
       reset_scores (λ r old new,
           fgtb (masked_mass r old) f0 = true →
           (∀ (i : nat) x, i ∉ r → new !! i = Some x → x = 0%float) ∧
           (Forall (λ x, fgeb x f0 = true) old → Forall (λ x, fltb x f0 = false) new))
         G ev ev' h h').
Proof.
  split.
  - intros F HA HR G I upd ev ev' h h' Hvalid Hrun.
    apply semantics_process_done in Hrun as [_ Hall]; [|done].
    eapply Forall2_impl; [exact Hall|].
    intros p p' (_ & _ & (r & Hr & ->) & (r' & Hr' & _ & ->)).
    exists r, r'. repeat split; try done; by apply renormalised_within.
  - intros G I upd ev ev' h h' Hvalid Hrun.
    apply semantics_process_done in Hrun as [_ Hall]; [|done].
    eapply Forall2_impl; [exact Hall|].
    intros p p' (_ & _ & (r & Hr & ->) & (r' & Hr' & _ & ->)).
    exists r, r'. split; [done|]. split; [done|]. split; apply renormalised_float.
Qed.

Section semantics_twice.
Context {F : Type} `{Rounded F}.
Context (G : Globals F).
Context {I : Type} (update_particle_info : list (Particle F) → Heap F → I → I).

(** C9.  When [process] has run to its end on an event, it runs to its end
    on the result as well, and a particle differs after the second run from
    what it was after the first in nothing else than the arrays it refers
    to.  The scores the processor does not reset are the same arrays of
    numbers after both runs.  Those it resets are the same up to the
    tolerance of the rounding, in any dtype: if the scores before the first
    run were numbers, none negative, with weight on the allowed labels, and
    the additions and divisions of both runs were accurate within the
    factors [round_lo] and [round_hi], then every score after the second run
    is within the factor [(round_hi / round_lo) ^ (n + 1)] of the score
    after the first, for [n] scores: equal in exact arithmetic, and within
    about [2 * (n + 1) * 2^-53] of it, relatively, in binary64. *)
Theorem semantics_process_idempotent self (ev ev1 : Event F I) h h1 :
  Forall (valid_refs h) (particles ev) →
  semantics_process G update_particle_info self (ev, h) = ((ev1, h1), inr tt) →
  ∃ ev2 h2,
    semantics_process G update_particle_info self (ev1, h1) = ((ev2, h2), inr tt) ∧
    ∀ (i : nat) p p1 p2,
      particles ev !! i = Some p →
      particles ev1 !! i = Some p1 →
      particles ev2 !! i = Some p2 →
      same_but_scores p1 p2 ∧
      rerun (enforce_pid self) (SHP_TO_PID G !! semantic_type p)
        (deref h (pid_scores p)) (deref h1 (pid_scores p1)) (deref h2 (pid_scores p2)) ∧
      rerun (enforce_primary self) (SHP_TO_PRIMARY G !! semantic_type p)
        (deref h (primary_scores p)) (deref h1 (primary_scores p1))
        (deref h2 (primary_scores p2)).
Proof.
  intros Hvalid Hrun1.
  apply semantics_process_done in Hrun1 as [_ Hall1]; [|done].
  assert (Forall (valid_refs h1) (particles ev1)) as Hvalid1.
  { eapply Forall2_Forall_r; [exact Hall1|]. apply Forall_true. by intros p p1 [? _]. }
  assert (Forall (resettable G self h1) (particles ev1)) as Hres1.
  { eapply Forall2_Forall_r; [exact Hall1|]. apply Forall_true.
    intros p p1 (_ & Hsame & Hp & Hq). apply same_but_scores_shape in Hsame.
    split; intros Hflag; rewrite Hflag in *; rewrite Hsame.
    - destruct Hp as (r & -> & _). by eexists.
    - destruct Hq as (r & -> & Hin & ->). exists r. split; [done|].
      by rewrite length_renormalised. }
  destruct (semantics_process_completes G update_particle_info self ev1 h1 Hvalid1 Hres1)
    as (ev2 & h2 & Hrun2).
  exists ev2, h2. split; [done|].
  apply semantics_process_done in Hrun2 as [_ Hall2]; [|done].
  intros i p p1 p2 Hp Hp1 Hp2.
  destruct (Forall2_lookup_lr _ _ _ _ _ _ Hall1 Hp Hp1) as (_ & Hsame1 & Hpid1 & Hprim1).
  destruct (Forall2_lookup_lr _ _ _ _ _ _ Hall2 Hp1 Hp2) as (_ & Hsame2 & Hpid2 & Hprim2).
  apply same_but_scores_shape in Hsame1. rewrite Hsame1 in Hpid2, Hprim2.
  split; [done|]. unfold rerun. split.
  - destruct (enforce_pid self); [|done].
    destruct Hpid1 as (r & Hr & Hpid1), Hpid2 as (r' & Hr' & ->).
    rewrite Hr in Hr'. injection Hr' as <-. rewrite Hpid1, Hr.
    intros r' [= <-] Hwr Hacc. by apply renormalised_close.
  - destruct (enforce_primary self); [|done].
    destruct Hprim1 as (r & Hr & _ & Hprim1), Hprim2 as (r' & Hr' & _ & ->).
    rewrite Hr in Hr'. injection Hr' as <-. rewrite Hprim1, Hr.
    intros r' [= <-] Hwr Hacc. by apply renormalised_close.
Qed.
End semantics_twice.

(** *** Out-of-range labels *)

Section semantics_range.
Context {F : Type} `{Arith F}.
Context (G : Globals F).
Implicit Types (p : Particle F) (h : Heap F).

(** C8, as amended.  The PID labels the shape allows that are at or beyond
    the length of the PID scores are dropped, and the PID scores are reset
    without an exception, to the scores masked to the labels that are left
    and divided by their sum.  The primary labels are used as they are: the
    primary scores are reset without an exception when all the labels the
    shape allows are below their length. *)
Theorem semantics_labels_out_of_range p h :
  (∀ r, SHP_TO_PID G !! semantic_type p = Some r →
     let old := deref h (pid_scores p) in
     reset_pid_scores G (p, h)
     = ((set_pid_scores (length h) p,
         h ++ [renormalised (filter (λ i, (i < length old)%nat) r) old]), inr tt))
  ∧ (∀ r, SHP_TO_PRIMARY G !! semantic_type p = Some r →
       let old := deref h (primary_scores p) in
       Forall (λ i, (i < length old)%nat) r →
       reset_primary_scores G (p, h)
       = ((set_primary_scores (length h) p, h ++ [renormalised r old]), inr tt)).
Proof.
  split.
  - intros r Hr old. rewrite reset_pid_scores_cases, Hr.
    unfold renormalised, masked_mass. fold (np_below r (length old)).
    by rewrite mask_below.
  - intros r Hr old Hin. rewrite reset_primary_scores_cases, Hr. cbn zeta.
    by rewrite bool_decide_eq_true_2.
Qed.
End semantics_range.

(** *** Binary64: nothing left under the mask *)

Section semantics_float.
Context (G : Globals float).
Implicit Types (p : Particle float) (h : Heap float).
Local Open Scope float_scope.

Lemma np_sum_zeros n : np_sum (np_zeros n : list float) = 0.
Proof.
  unfold np_sum, np_zeros. cbn [f0 fadd float_Arith].
  induction n as [|n IH]; [done|]. simpl. exact IH.
Qed.

(** A vector of which the mask leaves only zeros is renormalised to NaN
    throughout: zero divided by the zero sum. *)
Lemma renormalised_zeros r (a : list float) :
  mask r a = np_zeros (length a) → renormalised r a = replicate (length a) nan.
Proof.
  intros Hz. unfold renormalised, masked_mass. rewrite Hz, np_sum_zeros.
  unfold np_idiv, np_zeros. cbn [f0 fdiv float_Arith].
  clear Hz. induction (length a) as [|n IH]; [done|].
  simpl. rewrite IH. reflexivity.
Qed.

(** C2, as amended.  When the mask of the shape leaves only zeros of the
    scores of a particle, no exception is raised: the zeros are divided by
    their zero sum, and the particle is given a vector that is NaN throughout,
    as its PID scores and likewise as its primary scores. *)
Theorem semantics_zero_mass_writes_nan p h :
  (∀ r, SHP_TO_PID G !! semantic_type p = Some r →
     let old := deref h (pid_scores p) in
     mask r old = np_zeros (length old) →
     reset_pid_scores G (p, h)
     = ((set_pid_scores (length h) p, h ++ [replicate (length old) nan]), inr tt))
  ∧ (∀ r, SHP_TO_PRIMARY G !! semantic_type p = Some r →
       let old := deref h (primary_scores p) in
       Forall (λ i, (i < length old)%nat) r →
       mask r old = np_zeros (length old) →
       reset_primary_scores G (p, h)
       = ((set_primary_scores (length h) p, h ++ [replicate (length old) nan]), inr tt)).
Proof.
  split.
  - intros r Hr old Hz. rewrite reset_pid_scores_cases, Hr.
    by rewrite renormalised_zeros.
  - intros r Hr old Hin Hz. rewrite reset_primary_scores_cases, Hr. cbn zeta.
    rewrite bool_decide_eq_true_2 by done. by rewrite renormalised_zeros.
Qed.
End semantics_float.

(** *** On concrete particles *)

Section semantics_examples.
Import Sample.
Local Open Scope float_scope.

(** C2 as stated fails: on the track without weight on a track class,
    [process] ends without an exception, and the particle is left with PID
    scores that are NaN throughout. *)
Lemma semantics_zero_mass_no_error :
  let ev := mkEvent [example_track] ([] : list unit) in
  let res := semantics_process float_globals no_update (mkSemantics true true)
               (ev, shower_like_store) in
  masked_mass [MUON_PID; PION_PID; PROT_PID; KAON_PID] [0.5; 0.5; 0; 0; 0]%float
  = 0%float ∧
  res.2 = inr tt ∧
  (λ p, deref res.1.2 (pid_scores p)) <$> particles res.1.1
  = [[nan; nan; nan; nan; nan]].
Proof. repeat split; vm_compute; reflexivity. Qed.

Lemma semantics_zero_mass_writes_nan_witness :
  reset_pid_scores float_globals (example_track, shower_like_store)
  = ((set_pid_scores 2%nat example_track,
      shower_like_store ++ [[nan; nan; nan; nan; nan]]), inr tt)
  ∧ reset_primary_scores float_globals (example_track, [[0; 0; 1]; [0; 0]]%float)
    = ((set_primary_scores 2%nat example_track,
        [[0; 0; 1]; [0; 0]]%float ++ [[nan; nan]]), inr tt).
Proof.
  split.
  - apply (proj1 (semantics_zero_mass_writes_nan float_globals
                    example_track shower_like_store)
             [MUON_PID; PION_PID; PROT_PID; KAON_PID]); vm_compute; reflexivity.
  - apply (proj2 (semantics_zero_mass_writes_nan float_globals
                    example_track [[0; 0; 1]; [0; 0]]%float) [0; 1]%nat).
    + vm_compute. reflexivity.
    + repeat constructor.
    + vm_compute. reflexivity.
Defined.

(** C8 as stated fails for the primary labels: the shower allows the labels
    0 and 1, its array of primary scores has the entry 0 only, and resetting
    the primary scores raises an [IndexError]. *)
Lemma semantics_primary_label_out_of_range :
  SHP_TO_PRIMARY float_globals !! semantic_type short_primary_shower = Some [0; 1]%nat ∧
  length (deref short_primary_store (primary_scores short_primary_shower)) = 1%nat ∧
  reset_primary_scores float_globals (short_primary_shower, short_primary_store)
  = ((short_primary_shower, short_primary_store ++ [[0%float]]), inl IndexError) ∧
  (semantics_process float_globals no_update (mkSemantics true true)
     (mkEvent [short_primary_shower] ([] : list unit), short_primary_store)).2
  = inl IndexError.
Proof. repeat split; vm_compute; reflexivity. Qed.

Lemma semantics_labels_out_of_range_witness :
  reset_pid_scores float_globals (example_track, short_pid_store)
  = ((set_pid_scores 2%nat example_track, short_pid_store ++ [[0; 0; 1]%float]), inr tt)
  ∧ reset_primary_scores float_globals (example_track, short_pid_store)
    = ((set_primary_scores 2%nat example_track,
        short_pid_store ++ [[0.25; 0.75]%float]), inr tt).
Proof.
  split.
  - etrans.
    + apply (proj1 (semantics_labels_out_of_range float_globals
                      example_track short_pid_store)
               [MUON_PID; PION_PID; PROT_PID; KAON_PID]).
      vm_compute. reflexivity.
    + vm_compute. reflexivity.
  - etrans.
    + apply (proj2 (semantics_labels_out_of_range float_globals
                      example_track short_pid_store) [0; 1]%nat).
      * vm_compute. reflexivity.
      * repeat constructor.
    + vm_compute. reflexivity.
Defined.
End semantics_examples.

Section semantics_rounding_examples.
Import Sample.
Local Open Scope float_scope.

(** Evaluating a statement on concrete binary64 scores. *)
Ltac evaluate_masks :=
  repeat match goal with
         | |- context [mask ?r ?a] =>
             let m := eval vm_compute in (mask r a) in change (mask r a) with m
         end.
Ltac by_evaluation :=
  unfold well_rounded, accurate; cbn zeta; evaluate_masks;
  repeat first [split | constructor]; vm_compute; first [reflexivity | discriminate].

(** In binary64, on the track with muon 0.3, pion 0.6 and proton 0.1 and
    the primary scores 0.2 and 0.8: every addition and division of the
    renormalisation is accurate within [1 - 2^-53] and [1 + 2^-53], and so
    the scores after [process] are within the tolerance, and so is their
    [np.sum], whose additions are accurate as well; and as the sums under
    the masks are above zero, the scores after [process] are zero outside
    the allowed labels and none is below zero. *)
Lemma semantics_scores_consistent_witness :
  let ev := mkEvent [example_track] ([] : list unit) in
  let res := semantics_process float_globals no_update (mkSemantics true true)
               (ev, example_store) in
  let tracks := [MUON_PID; PION_PID; PROT_PID; KAON_PID] in
  (well_rounded tracks [0; 0; 0.3; 0.6; 0.1] ∧
   well_rounded [0; 1]%nat [0.2; 0.8] ∧
   Forall (λ p',
       within_tolerance tracks (deref res.1.2 (pid_scores p')) ∧
       within_tolerance [0; 1]%nat (deref res.1.2 (primary_scores p')) ∧
       sums_ok f0 (deref res.1.2 (pid_scores p')) ∧
       sums_ok f0 (deref res.1.2 (primary_scores p')))
     (particles res.1.1)) ∧
  (fgtb (masked_mass tracks [0; 0; 0.3; 0.6; 0.1]) 0 = true ∧
   fgtb (masked_mass [0; 1]%nat [0.2; 0.8]) 0 = true ∧
   Forall (λ p',
       (∀ (i : nat) x, i ∉ tracks →
          deref res.1.2 (pid_scores p') !! i = Some x → x = 0) ∧
       Forall (λ x, fltb x 0 = false) (deref res.1.2 (pid_scores p')) ∧
       Forall (λ x, fltb x 0 = false) (deref res.1.2 (primary_scores p')))
     (particles res.1.1)).
Proof.
  intros ev res tracks.
  assert (particles res.1.1
          = [set_primary_scores 3%nat (set_pid_scores 2%nat example_track)]) as Hps
    by (vm_compute; reflexivity).
  split.
  - assert (well_rounded tracks [0; 0; 0.3; 0.6; 0.1]) as Hpid by by_evaluation.
    assert (well_rounded [0; 1]%nat [0.2; 0.8]) as Hprim by by_evaluation.
    split; [done|]. split; [done|].
    pose proof (proj1 semantics_scores_consistent float _ _ float_globals unit no_update
                  ev res.1.1 example_store res.1.2) as Hall.
    unfold reset_scores in Hall. rewrite Hps in *.
    apply Forall2_cons_1 in Hall as [(r & r' & Hr & Hr' & Hp & Hp') _].
    + vm_compute in Hr, Hr'. injection Hr as <-. injection Hr' as <-.
      constructor; [|constructor].
      split; [by apply Hp|]. split; [by apply Hp'|].
      split; vm_compute; repeat split; discriminate.
    + repeat constructor.
    + vm_compute. reflexivity.
  - assert (fgtb (masked_mass tracks [0; 0; 0.3; 0.6; 0.1]) 0 = true) as Hpid
      by (vm_compute; reflexivity).
    assert (fgtb (masked_mass [0; 1]%nat [0.2; 0.8]) 0 = true) as Hprim
      by (vm_compute; reflexivity).
    split; [done|]. split; [done|].
    pose proof (proj2 semantics_scores_consistent float_globals unit no_update
                  ev res.1.1 example_store res.1.2) as Hall.
    unfold reset_scores in Hall. rewrite Hps in *.
    apply Forall2_cons_1 in Hall as [(r & r' & Hr & Hr' & Hp & Hp') _].
    + vm_compute in Hr, Hr'. injection Hr as <-. injection Hr' as <-.
      destruct (Hp Hpid) as [Hout Hnn]. destruct (Hp' Hprim) as [_ Hnn'].
      constructor; [|constructor]. split; [done|].
      split; [apply Hnn|apply Hnn']; repeat constructor.
    + repeat constructor.
    + vm_compute. reflexivity.
Defined.

(** On the same track, the additions and divisions of a second run are
    accurate as well, and every score after the second run is within the
    factor of the score after the first. *)
Lemma semantics_process_idempotent_witness :
  let self := mkSemantics true true in
  let ev := mkEvent [example_track] ([] : list unit) in
  let res1 := semantics_process float_globals no_update self (ev, example_store) in
  let res2 := semantics_process float_globals no_update self res1.1 in
  let tracks := [MUON_PID; PION_PID; PROT_PID; KAON_PID] in
  well_rounded tracks [0; 0; 0.3; 0.6; 0.1] ∧
  well_rounded [0; 1]%nat [0.2; 0.8] ∧
  res2.2 = inr tt ∧
  Forall2 (λ p1 p2,
      accurate tracks (deref res1.1.2 (pid_scores p1)) ∧
      accurate [0; 1]%nat (deref res1.1.2 (primary_scores p1)) ∧
      close (deref res1.1.2 (pid_scores p1)) (deref res2.1.2 (pid_scores p2)) ∧
      close (deref res1.1.2 (primary_scores p1)) (deref res2.1.2 (primary_scores p2)))
    (particles res1.1.1) (particles res2.1.1).
Proof.
  intros self ev res1 res2 tracks.
  assert (well_rounded tracks [0; 0; 0.3; 0.6; 0.1]) as Hwpid by by_evaluation.
  assert (well_rounded [0; 1]%nat [0.2; 0.8]) as Hwprim by by_evaluation.
  split; [done|]. split; [done|].
  destruct (semantics_process_idempotent float_globals no_update self ev res1.1.1
              example_store res1.1.2) as (ev2 & h2 & Hrun2 & Hclose).
  - repeat constructor.
  - vm_compute. reflexivity.
  - assert (res2 = ((ev2, h2), inr tt)) as Hres2
      by (rewrite <- Hrun2; vm_compute; reflexivity).
    rewrite Hres2. split; [done|]. cbn [fst snd].
    assert (particles res1.1.1
            = [set_primary_scores 3%nat (set_pid_scores 2%nat example_track)]) as Hps1
      by (vm_compute; reflexivity).
    assert (particles ev2
            = [set_primary_scores 5%nat (set_pid_scores 4%nat example_track)]) as Hps2.
    { apply (f_equal (λ res, particles res.1.1)) in Hres2. cbn [fst snd] in Hres2.
      rewrite <- Hres2. vm_compute. reflexivity. }
    rewrite Hps1, Hps2. constructor; [|constructor].
    destruct (Hclose 0%nat example_track _ _ eq_refl
                ltac:(rewrite Hps1; reflexivity) ltac:(rewrite Hps2; reflexivity))
      as (_ & Hpid & Hprim).
    cbn [pid_scores primary_scores set_pid_scores set_primary_scores].
    assert (accurate tracks (deref res1.1.2 2%nat)) as Hapid by by_evaluation.
    assert (accurate [0; 1]%nat (deref res1.1.2 3%nat)) as Haprim by by_evaluation.
    split; [done|]. split; [done|]. split.
    + by apply (Hpid tracks); [vm_compute; reflexivity|..].
    + by apply (Hprim [0; 1]%nat); [vm_compute; reflexivity|..].
Defined.

(** What the accuracy asked of an operation leaves out in binary64: a sum
    that overflows is not a number, and a quotient that underflows is not
    within the factors of the exact one. *)
Example binary64_accuracy_limits :
  ¬ add_ok 0x1.fffffffffffffp1023 0x1.fffffffffffffp1023 ∧ ¬ div_ok 0x1p-1074 3.
Proof.
  split; intros (Hfin & Hlo & Hhi).
  - vm_compute in Hfin. discriminate.
  - vm_compute in Hlo. by apply Hlo.
Qed.
End semantics_rounding_examples.

(** *** Binary64: the scores after [process] on one event *)

Section semantics_float_examples.
Import Sample.
Local Open Scope float_scope.

(** On the track with muon 0.3, pion 0.6 and proton 0.1 all the weight is on
    allowed classes: the PID scores after [process] are zero on the photon
    and the electron and sum to one within one unit in the last place, and a
    second run leaves every score within that distance of the first. *)
Example semantics_float_run :
  let self := mkSemantics true true in
  let ev := mkEvent [example_track] ([] : list unit) in
  let res1 := semantics_process float_globals no_update self (ev, example_store) in
  let res2 := semantics_process float_globals no_update self res1.1 in
  let scores res := (λ p, deref res.1.2 (pid_scores p)) <$> particles res.1.1 in
  res1.2 = inr tt ∧ res2.2 = inr tt ∧
  (take 2 <$> scores res1) = [[0; 0]] ∧
  (λ a, PrimFloat.leb (PrimFloat.abs (np_sum a - 1)) 0x1p-52) <$> scores res1 = [true] ∧
  (λ aa, forallb (λ xy, PrimFloat.leb (PrimFloat.abs (xy.1 - xy.2)) 0x1p-52)
           (zip aa.1 aa.2)) <$> zip (scores res1) (scores res2) = [true].
Proof. repeat split; vm_compute; reflexivity. Qed.
End semantics_float_examples.

(** * Further properties of the processors *)

(** ** ParticleSemanticsProcessor: what [process] leaves alone *)

Section semantics_frame.
Context {F : Type} `{Arith F}.
Context (G : Globals F).
Context {I : Type} (update_particle_info : list (Particle F) → Heap F → I → I).
Implicit Types (self : ParticleSemanticsProcessor) (p : Particle F) (h : Heap F).

(** Whatever the body of the loop does, and also when it raises: the particle
    is as before up to the arrays its scores refer to, and the store only has
    arrays added. *)
Lemma semantics_body_frame self p h p' h' r :
  semantics_body G self (p, h) = ((p', h'), r) →
  same_but_scores p p' ∧ ∃ extra, h' = h ++ extra.
Proof.
  rewrite semantics_body_cases.
  assert (∀ p1 h1, same_but_scores p p1 → (∃ extra, h1 = h ++ extra) →
            (if enforce_primary self then reset_primary_scores G (p1, h1)
             else ((p1, h1), inr tt)) = ((p', h'), r) →
            same_but_scores p p' ∧ ∃ extra, h' = h ++ extra) as Hprim.
  { intros p1 h1 Hp1 [extra1 ->]. destruct (enforce_primary self).
    - rewrite reset_primary_scores_cases.
      destruct (SHP_TO_PRIMARY G !! semantic_type p1) as [r'|].
      + cbn zeta. case_bool_decide; intros [= <- <- <-].
        * split; [|by eexists; rewrite <- app_assoc].
          unfold same_but_scores in *. rewrite Hp1. by destruct p.
        * split; [done|]. by eexists; rewrite <- app_assoc.
      + intros [= <- <- <-]. split; [done|by eexists].
    - intros [= <- <- <-]. split; [done|by eexists]. }
  destruct (enforce_pid self).
  - rewrite reset_pid_scores_cases.
    destruct (SHP_TO_PID G !! semantic_type p) as [r0|].
    + apply Hprim; [by destruct p|by eexists].
    + intros [= <- <- <-]. split; [apply same_but_scores_refl|].
      exists []. by rewrite app_nil_r.
  - apply Hprim; [apply same_but_scores_refl|]. exists []. by rewrite app_nil_r.
Qed.

(** X1.  Whatever [process] does on an event, and also when it raises: every
    array of the store is as it was (the scores are always written to new
    arrays), every particle is as before up to the arrays its scores refer
    to, and when an exception is raised no interaction has been updated. *)
Theorem semantics_process_frame self (ev ev' : Event F I) h h' r :
  semantics_process G update_particle_info self (ev, h) = ((ev', h'), r) →
  (∀ (l : loc) a, h !! l = Some a → h' !! l = Some a) ∧
  Forall2 same_but_scores (particles ev) (particles ev') ∧
  (∀ e, r = inl e → interactions ev' = interactions ev).
Proof.
  intros Hrun. unfold semantics_process, update_interactions in Hrun.
  cbn [fst snd] in Hrun.
  destruct (for_particles _ _ _) as [[ps1 h1] r1] eqn:Hloop.
  apply (for_particles_frame _ same_but_scores) in Hloop as [Hps [extra Hh]];
    [|apply same_but_scores_refl|apply semantics_body_frame].
  destruct r1 as [e1|[]]; injection Hrun as <- <- <-; subst h1; cbn [particles interactions].
  - split; [|done]. intros l a Hl. by apply lookup_app_l_Some.
  - split; [|split; [done|done]]. intros l a Hl. by apply lookup_app_l_Some.
Qed.

(** X2.  With both flags off [process] touches no particle and no array and
    never raises, whatever the shapes of the particles; it only updates the
    interactions.  With one flag off, the scores that flag stands for are the
    same array objects after [process] as before, whatever the outcome. *)
Theorem semantics_process_flags_off :
  (∀ (ev : Event F I) h,
     semantics_process G update_particle_info (mkSemantics false false) (ev, h)
     = ((mkEvent (particles ev)
           (map (update_particle_info (particles ev) h) (interactions ev)), h),
        inr tt))
  ∧ (∀ self (ev ev' : Event F I) h h' r,
       semantics_process G update_particle_info self (ev, h) = ((ev', h'), r) →
       (enforce_pid self = false →
          Forall2 (λ p p', pid_scores p' = pid_scores p) (particles ev) (particles ev'))
       ∧ (enforce_primary self = false →
            Forall2 (λ p p', primary_scores p' = primary_scores p)
              (particles ev) (particles ev'))).
Proof.
  split.
  - intros ev h. unfold semantics_process, update_interactions. cbn [fst snd].
    rewrite (for_particles_map _ id); [by rewrite map_id|].
    apply Forall_forall. intros p _. by rewrite semantics_body_cases.
  - intros self ev ev' h h' r Hrun.
    unfold semantics_process, update_interactions in Hrun. cbn [fst snd] in Hrun.
    destruct (for_particles _ _ _) as [[ps1 h1] r1] eqn:Hloop.
    assert (particles ev' = ps1) as ->.
    { by destruct r1 as [e1|[]]; injection Hrun as <- <- <-. }
    split; intros Hflag.
    + apply (for_particles_frame _ (λ p p', pid_scores p' = pid_scores p))
        in Hloop as [Hps _]; [done|done|].
      intros p h0 p' h0' r0. rewrite semantics_body_cases, Hflag.
      destruct (enforce_primary self).
      * rewrite reset_primary_scores_cases.
        destruct (SHP_TO_PRIMARY G !! semantic_type p) as [r'|]; cbn zeta;
          [case_bool_decide|]; intros [= <- <- <-];
          (split; [done|]);
          first [by eexists | by exists []; rewrite app_nil_r].
      * intros [= <- <- <-]. split; [done|]. exists []. by rewrite app_nil_r.
    + apply (for_particles_frame _ (λ p p', primary_scores p' = primary_scores p))
        in Hloop as [Hps _]; [done|done|].
      intros p h0 p' h0' r0. rewrite semantics_body_cases, Hflag.
      destruct (enforce_pid self).
      * rewrite reset_pid_scores_cases.
        destruct (SHP_TO_PID G !! semantic_type p) as [r'|];
          intros [= <- <- <-]; (split; [done|]);
          first [by eexists | by exists []; rewrite app_nil_r].
      * intros [= <- <- <-]. split; [done|]. exists []. by rewrite app_nil_r.
Qed.
End semantics_frame.

(** ** ParticleSemanticsProcessor: shapes the tables do not have *)

Section semantics_errors.
Context {F : Type} `{Arith F}.
Context (G : Globals F).
Context {I : Type} (update_particle_info : list (Particle F) → Heap F → I → I).
Implicit Types (self : ParticleSemanticsProcessor) (p : Particle F) (h : Heap F).

(** X3.  A particle whose shape is not a key of the table of a flag that is
    set makes [process] raise a [KeyError], once the loop is past the
    particles before it.  If it is the PID table that lacks the shape, the
    particle is as before.  If the PID table has the shape and the primary
    table lacks it, the particle has been given its new PID scores by the
    time the exception is raised. *)
Theorem semantics_unknown_shape self p h ps1 ps1' h1 ps2 (ias : list I) :
  for_particles (semantics_body G self) ps1 h = ((ps1', h1), inr tt) →
  (enforce_pid self = true → SHP_TO_PID G !! semantic_type p = None →
     semantics_process G update_particle_info self (mkEvent (ps1 ++ p :: ps2) ias, h)
     = ((mkEvent (ps1' ++ p :: ps2) ias, h1), inl KeyError))
  ∧ (enforce_pid self = false → enforce_primary self = true →
     SHP_TO_PRIMARY G !! semantic_type p = None →
     semantics_process G update_particle_info self (mkEvent (ps1 ++ p :: ps2) ias, h)
     = ((mkEvent (ps1' ++ p :: ps2) ias, h1), inl KeyError))
  ∧ (∀ r, enforce_pid self = true → enforce_primary self = true →
     SHP_TO_PID G !! semantic_type p = Some r →
     SHP_TO_PRIMARY G !! semantic_type p = None →
     semantics_process G update_particle_info self (mkEvent (ps1 ++ p :: ps2) ias, h)
     = ((mkEvent (ps1' ++ set_pid_scores (length h1) p :: ps2) ias,
         h1 ++ [renormalised r (deref h1 (pid_scores p))]),
        inl KeyError)).
Proof.
  intros Hloop.
  assert (∀ p' h2,
            semantics_body G self (p, h1) = ((p', h2), inl KeyError) →
            semantics_process G update_particle_info self
              (mkEvent (ps1 ++ p :: ps2) ias, h)
            = ((mkEvent (ps1' ++ p' :: ps2) ias, h2), inl KeyError)) as Hraise.
  { intros p' h2 Hb. unfold semantics_process. cbn [fst snd particles interactions].
    by erewrite for_particles_raise. }
  split; [|split].
  - intros Hpid Hnone. apply Hraise.
    by rewrite semantics_body_cases, Hpid, reset_pid_scores_cases, Hnone.
  - intros Hpid Hprim Hnone. apply Hraise.
    by rewrite semantics_body_cases, Hpid, Hprim, reset_primary_scores_cases, Hnone.
  - intros r Hpid Hprim Hr Hnone. apply Hraise.
    rewrite semantics_body_cases, Hpid, Hprim, reset_pid_scores_cases, Hr.
    rewrite reset_primary_scores_cases. cbn [semantic_type set_pid_scores].
    by rewrite Hnone.
Qed.

(** X4.  When [process] has run to its end, the PID scores and the primary
    scores of every particle have as many entries as they had. *)
Theorem semantics_process_keeps_lengths self (ev ev' : Event F I) h h' :
  Forall (valid_refs h) (particles ev) →
  semantics_process G update_particle_info self (ev, h) = ((ev', h'), inr tt) →
  Forall2 (λ p p',
      length (deref h' (pid_scores p')) = length (deref h (pid_scores p)) ∧
      length (deref h' (primary_scores p')) = length (deref h (primary_scores p)))
    (particles ev) (particles ev').
Proof.
  intros Hvalid Hrun.
  apply semantics_process_done in Hrun as [_ Hall]; [|done].
  eapply Forall2_impl; [exact Hall|].
  intros p p' (_ & _ & Hpid & Hprim). split.
  - destruct (enforce_pid self); [|by rewrite Hpid].
    destruct Hpid as (r & _ & ->). apply length_renormalised.
  - destruct (enforce_primary self); [|by rewrite Hprim].
    destruct Hprim as (r & _ & _ & ->). apply length_renormalised.
Qed.
End semantics_errors.

(** ** MomentumProcessor: errors, frame and a second run *)

Section momentum_more.
Context {F : Type} `{Floating F}.
Context (G : Globals F).
Implicit Types (self : MomentumProcessor) (p : Particle F) (h : Heap F).

(** A loop whose body never touches the store leaves it as it was. *)
Lemma for_particles_same_store (body : M (@PState F) unit)
    (R : Particle F → Particle F → Prop) ps h ps' h' r :
  (∀ p, R p p) →
  (∀ p h p' h' r, body (p, h) = ((p', h'), r) → h' = h ∧ R p p') →
  for_particles body ps h = ((ps', h'), r) →
  h' = h ∧ Forall2 R ps ps'.
Proof.
  intros Hrefl Hbody. revert ps'.
  induction ps as [|p ps IH]; intros ps' Hrun; simpl in Hrun.
  - injection Hrun as <- <- <-. by split; [|constructor].
  - destruct (body (p, h)) as [[p1 h1] [e|[]]] eqn:Hb;
      apply Hbody in Hb as [-> Hp].
    + injection Hrun as <- <- <-. split; [done|]. constructor; [done|].
      apply Forall_Forall2_diag, Forall_forall. auto.
    + destruct (for_particles body ps h) as [[ps1 h2] r1] eqn:Hrest.
      injection Hrun as <- <- <-.
      destruct (IH _ eq_refl) as [-> Hps]. split; [done|]. by constructor.
Qed.

Lemma momentum_body_frame self p h p' h' r :
  momentum_body G self (p, h) = ((p', h'), r) → h' = h ∧ same_but_momentum p p'.
Proof.
  rewrite momentum_body_cases. unfold same_but_momentum, with_momentum.
  case_bool_decide; [intros [= <- <- <-]; by split; [|left]|].
  destruct (PID_MASSES G !! pid p) as [mass|]; [|intros [= <- <- <-]; by split; [|left]].
  destruct (fltb _ _); [intros [= <- <- <-]; by split; [|left]|].
  destruct (start_dir p !! 0%nat) as [d0|]; [|intros [= <- <- <-]; by split; [|left]].
  destruct (feqb _ _); intros [= <- <- <-]; (split; [done|]); [by left|right; by eexists].
Qed.

(** X5.  Whatever [process] does on an event, and also when it raises: the
    store and the interactions are as they were, and every particle is as
    before or has had a momentum assigned and nothing else changed. *)
Theorem momentum_process_frame {I} self (ev ev' : Event F I) h h' r :
  momentum_process G self (ev, h) = ((ev', h'), r) →
  h' = h ∧ interactions ev' = interactions ev ∧
  Forall2 same_but_momentum (particles ev) (particles ev').
Proof.
  unfold momentum_process. cbn [fst snd].
  destruct (for_particles _ _ _) as [[ps1 h1] r1] eqn:Hloop.
  intros [= <- <- <-]. cbn [particles interactions].
  apply (for_particles_same_store _ same_but_momentum) in Hloop as [-> Hps];
    [done|by left|apply momentum_body_frame].
Qed.

(** X6.  The checks of the loop come in a fixed order.  Past particles that
    are ready or without a determined PID, a particle with a PID that is not
    negative and has no mass makes [process] raise the [ValueError] on the
    unsupported PID, whatever its energies and its direction.  With a
    supported PID and a resolved kinetic energy that is not below zero, a
    direction whose first component is minus infinity raises the
    [ValueError] on the direction, and a direction without components an
    [IndexError].  The particle is left as it was each time. *)
Theorem momentum_process_errors {I} self p h ps1 ps2 (ias : list I) :
  Forall (λ q, momentum_ready G self q ∨ pid q < 0) ps1 →
  0 ≤ pid p →
  let raises e :=
    momentum_process G self (mkEvent (ps1 ++ p :: ps2) ias, h)
    = ((mkEvent (map (momentum_update G self) ps1 ++ p :: ps2) ias, h), inl e) in
  (PID_MASSES G !! pid p = None → raises (ValueError bad_pid_msg))
  ∧ (is_Some (PID_MASSES G !! pid p) → fltb (resolve_ke G self p) f0 = false →
     (start_dir p = [] → raises IndexError)
     ∧ (∀ d0, start_dir p !! 0%nat = Some d0 → feqb d0 fneg_inf = true →
          raises (ValueError no_dir_msg))).
Proof.
  intros Hps1 Hpid raises.
  assert (∀ e, momentum_body G self (p, h) = ((p, h), inl e) → raises e) as Hraise.
  { intros e Hb. unfold raises, momentum_process. cbn [fst snd particles interactions].
    by erewrite for_particles_raise; [|by apply momentum_loop_completes|done]. }
  split; [|intros [mass Hm] Hke; split].
  - intros Hnone. apply Hraise.
    by rewrite momentum_body_cases, bool_decide_eq_false_2, Hnone by lia.
  - intros Hdir. apply Hraise.
    by rewrite momentum_body_cases, bool_decide_eq_false_2, Hm, Hke, Hdir by lia.
  - intros d0 Hd0 Hinf. apply Hraise.
    by rewrite momentum_body_cases, bool_decide_eq_false_2, Hm, Hke, Hd0, Hinf by lia.
Qed.

(** A particle that got its momentum is still ready, and assigning the
    momentum again changes nothing. *)
Lemma with_momentum_ready self p :
  momentum_ready G self p →
  momentum_ready G self (with_momentum G self p)
  ∧ with_momentum G self (with_momentum G self p) = with_momentum G self p.
Proof.
  intros (Hpid & [mass Hm] & Hke & Hdir).
  unfold momentum_ready, with_momentum, resolve_ke. rewrite Hm.
  cbn [pid set_momentum semantic_type is_contained csda_ke mcs_ke calo_ke start_dir].
  rewrite Hm. split; [|done]. split; [done|]. split; [by eexists|]. by split.
Qed.

(** X7.  A second run of [process] changes nothing: when [process] has run
    to its end on an event, it runs to its end on the result and returns that
    very result. *)
Theorem momentum_process_twice {I} self (ev ev1 : Event F I) h h1 :
  momentum_process G self (ev, h) = ((ev1, h1), inr tt) →
  momentum_process G self (ev1, h1) = ((ev1, h1), inr tt).
Proof.
  unfold momentum_process. cbn [fst snd].
  destruct (for_particles _ (particles ev) _) as [[ps1 h2] r1] eqn:Hloop.
  intros [= <- <- ->]. cbn [particles interactions].
  apply for_particles_done in Hloop.
  rewrite (for_particles_map _ id); [by rewrite map_id|].
  eapply Forall2_Forall_r; [exact Hloop|]. apply Forall_true.
  intros p p' (ha & hb & Hb). apply momentum_body_done in Hb as [_ Hb]. simpl.
  destruct Hb as [[Hr ->]|[Hpid ->]].
  - destruct (with_momentum_ready self p Hr) as [Hr' Heq].
    by rewrite momentum_body_ready, Heq.
  - by apply momentum_body_skip.
Qed.

(** The branches of the choice of the kinetic energy. *)
Lemma resolve_ke_branches self p :
  resolve_ke G self p = calo_ke p
  ∨ (semantic_type p = TRACK_SHP G ∧ resolve_ke G self p = csda_ke p
     ∧ fgtb (csda_ke p) f0 = true)
  ∨ (semantic_type p = TRACK_SHP G ∧ resolve_ke G self p = mcs_ke p
     ∧ fgtb (mcs_ke p) f0 = true).
Proof.
  unfold resolve_ke. case_bool_decide as Hs; [by left|].
  destruct (String.eqb _ "csda" || is_contained p); simpl.
  - destruct (fgtb (csda_ke p) f0) eqn:Hc; [by right; left|].
    destruct (String.eqb _ "mcs" || negb (is_contained p)); simpl; [|by left].
    destruct (fgtb (mcs_ke p) f0) eqn:Hm; [by right; right|by left].
  - destruct (String.eqb _ "mcs" || negb (is_contained p)); simpl; [|by left].
    destruct (fgtb (mcs_ke p) f0) eqn:Hm; [by right; right|by left].
Qed.

(** X8.  The resolved kinetic energy is the calorimetric estimate, or the
    CSDA or the MCS estimate of a track, and then one that is positive; a
    particle that is not a track gets the calorimetric estimate under every
    method. *)
Theorem resolve_ke_sources self p :
  (semantic_type p ≠ TRACK_SHP G → resolve_ke G self p = calo_ke p)
  ∧ (resolve_ke G self p = calo_ke p
     ∨ (semantic_type p = TRACK_SHP G ∧ resolve_ke G self p = csda_ke p
        ∧ fgtb (csda_ke p) f0 = true)
     ∨ (semantic_type p = TRACK_SHP G ∧ resolve_ke G self p = mcs_ke p
        ∧ fgtb (mcs_ke p) f0 = true)).
Proof.
  split; [|apply resolve_ke_branches].
  intros Hs. unfold resolve_ke. by rewrite bool_decide_eq_true_2.
Qed.
End momentum_more.

(** ** Binary64: signs and NaN *)

Section float_facts.
Local Open Scope float_scope.

(** A number is not both below and above zero. *)
Lemma float_not_neg_and_pos (x : float) :
  PrimFloat.ltb x 0 = true → PrimFloat.ltb 0 x = true → False.
Proof.
  rewrite !ltb_spec. change (Prim2SF 0) with (S754_zero false).
  destruct (Prim2SF x) as [s|s| |s m e]; try destruct s; by cbv.
Qed.

(** NaN is not at or above anything. *)
Lemma float_nan_not_ge (v : float) : PrimFloat.leb v nan = false.
Proof.
  rewrite leb_spec. change (Prim2SF nan) with S754_nan.
  by destruct (Prim2SF v) as [s|s| |s m e]; try destruct s.
Qed.

(** NaN times anything is NaN. *)
Lemma float_nan_mul (c : float) : nan * c = nan.
Proof.
  rewrite <- (SF2Prim_Prim2SF (nan * c)), mul_spec.
  change (Prim2SF nan) with S754_nan. reflexivity.
Qed.
End float_facts.

Section momentum_float.
Context (G : Globals float).
Implicit Types (self : MomentumProcessor) (p : Particle float).

(** X9.  On binary64, a resolved kinetic energy below zero is always the
    calorimetric estimate: the CSDA and MCS estimates are only taken when
    positive.  So the [ValueError] on the missing [*_ke] attributes is only
    ever raised for a particle whose [calo_ke] is below zero. *)
Theorem resolve_ke_negative_is_calo self p :
  fltb (resolve_ke G self p) f0 = true →
  resolve_ke G self p = calo_ke p ∧ fltb (calo_ke p) f0 = true.
Proof.
  intros Hneg.
  destruct (resolve_ke_branches G self p) as [Hc|[(_ & He & Hpos)|(_ & He & Hpos)]].
  - split; [done|]. by rewrite <- Hc.
  - rewrite He in Hneg. destruct (float_not_neg_and_pos _ Hneg Hpos).
  - rewrite He in Hneg. destruct (float_not_neg_and_pos _ Hneg Hpos).
Qed.
End momentum_float.

(** ** Binary64: NaN scores and the threshold walk *)

Section nan_pipeline.
Context (G : Globals float).
Context {I : Type} (update_particle_info : list (Particle float) → Heap float → I → I).
Implicit Types (p : Particle float) (h : Heap float).

(** On scores that are NaN throughout the walk rejects every entry,
    whatever the thresholds. *)
Lemma all_rejected_nan (ths : list (nat * float)) (n : nat) :
  Forall (λ kv, (kv.1 < n)%nat) ths → all_rejected ths (replicate n nan).
Proof.
  induction 1 as [|[k v] ths Hk _ IH]; simpl; [done|].
  exists nan. split; [by apply lookup_replicate_2|]. split; [apply float_nan_not_ge|].
  unfold np_imul. change (map ?f ?l) with (f <$> l).
  rewrite fmap_replicate. cbn [fmul float_Arith]. by rewrite float_nan_mul.
Qed.

(** X10.  On binary64, a particle of whose PID scores the mask of its shape
    leaves only zeros goes through the enforcer without an exception and
    comes out with NaN scores; the threshold adjuster then raises the
    [AssertionError] on the missing coverage on it, whatever the thresholds
    of the mapping its shape selects, a last threshold of zero included, as
    long as the mapping is not empty and names classes the scores have. *)
Theorem nan_scores_fail_coverage (cfg : ParticlePropertiesProcessor float)
    p h r (ias : list I) :
  let old := deref h (pid_scores p) in
  let p1 := set_pid_scores (length h) p in
  let h1 := h ++ [replicate (length old) nan] in
  SHP_TO_PID G !! semantic_type p = Some r →
  mask r old = np_zeros (length old) →
  length (pid_thresholds_of G cfg p) ≠ 0%nat →
  Forall (λ kv, (kv.1 < length old)%nat) (pid_thresholds_of G cfg p) →
  semantics_process G update_particle_info (mkSemantics true false) (mkEvent [p] ias, h)
  = ((mkEvent [p1] (map (update_particle_info [p1] h1) ias), h1), inr tt)
  ∧ ∃ a, ∀ ias',
      properties_process G update_particle_info cfg (mkEvent [p1] ias', h1)
      = ((mkEvent [p1] ias', h1 ++ [a]), inl (AssertionError coverage_msg)).
Proof.
  intros old p1 h1 Hr Hzero Hlen Hkeys. split.
  - unfold semantics_process, update_interactions.
    cbn [fst snd particles interactions for_particles].
    rewrite semantics_body_cases. cbn [enforce_pid enforce_primary].
    by rewrite reset_pid_scores_cases, Hr, renormalised_zeros.
  - destruct (proj1 (spec_walk_all_rejected (pid_thresholds_of G cfg p)
                       (replicate (length old) nan))) as [a Ha];
      [by apply all_rejected_nan|].
    exists a. intros ias'. unfold properties_process, update_interactions.
    cbn [fst snd particles interactions for_particles].
    unfold properties_body, mbind, M_bind. rewrite adjust_pid_spec_walk.
    change (pid_thresholds_of G cfg p1) with (pid_thresholds_of G cfg p).
    rewrite bool_decide_eq_true_2 by done.
    unfold h1, p1. cbn [pid_scores set_pid_scores]. rewrite deref_new.
    fold old. by rewrite Ha.
Qed.
End nan_pipeline.

(** ** ParticlePropertiesProcessor: the class assigned and the primary flag *)

Section properties_more.
Context {F : Type} `{Floating F}.
Context (G : Globals F).
Context {I : Type} (update_particle_info : list (Particle F) → Heap F → I → I).
Implicit Types (self : ParticlePropertiesProcessor F) (p : Particle F) (h : Heap F).

(** The walk leaves as many scores as there were. *)
Lemma spec_walk_length ths : ∀ scores a r,
  spec_walk ths scores = (a, r) → length a = length scores.
Proof.
  induction ths as [|[k v] ths IH]; intros scores a r; simpl.
  - by intros [= <- <-].
  - destruct (scores !! k) as [sk|]; [|by intros [= <- <-]].
    destruct (fgeb sk v); [by intros [= <- <-]|].
    intros Hw%IH. rewrite Hw. unfold np_imul. apply length_map.
Qed.

(** The class the walk assigns is a class of the mapping, and one the scores
    have. *)
Lemma spec_walk_assigned ths : ∀ scores a k,
  spec_walk ths scores = (a, inr (Some k)) →
  (∃ v, (k, v) ∈ ths) ∧ is_Some (scores !! k).
Proof.
  induction ths as [|[k0 v0] ths IH]; intros scores a k; simpl; [done|].
  destruct (scores !! k0) as [sk|] eqn:Hk0; [|done].
  destruct (fgeb sk v0).
  - intros [= <- <-]. split; [exists v0; by left|by eexists].
  - intros [[v Hv] Hk]%IH. split; [exists v; by right|].
    apply lookup_lt_is_Some. apply lookup_lt_is_Some in Hk.
    unfold np_imul in Hk. by rewrite length_map in Hk.
Qed.

(** What the body of the loop has done to the PID when it ends without an
    exception. *)
Lemma properties_body_pid self p h p' h' :
  properties_body G self (p, h) = ((p', h'), inr tt) →
  if bool_decide (length (pid_thresholds_of G self p) ≠ 0%nat) then
    ∃ k v, (k, v) ∈ pid_thresholds_of G self p ∧ pid p' = Z.of_nat k
           ∧ is_Some (deref h (pid_scores p) !! k)
  else pid p' = pid p.
Proof.
  unfold properties_body, mbind, M_bind. rewrite adjust_pid_spec_walk.
  assert (∀ p1 h1, adjust_primary self (p1, h1) = ((p', h'), inr tt) → pid p' = pid p1)
    as Hprim.
  { intros p1 h1. rewrite adjust_primary_cases.
    destruct (primary_threshold self) as [t|]; [|by intros [= <- <-]].
    destruct (deref h1 (primary_scores p1) !! 1%nat); [|done]. by intros [= <- <-]. }
  destruct (bool_decide _); [|apply Hprim].
  destruct (spec_walk _ _) as [a [e|[k|]]] eqn:Hw; [done| |done].
  intros Hp%Hprim. apply spec_walk_assigned in Hw as [[v Hv] Hk].
  by exists k, v.
Qed.

(** X11.  When [process] has run to its end, every particle whose shape
    selects a mapping that is not empty has as its PID a class of that
    mapping, one that its scores have, and every other particle has the PID
    it had. *)
Theorem properties_process_pid self (ev ev' : Event F I) h h' :
  Forall (λ p, (pid_scores p < length h)%nat) (particles ev) →
  properties_process G update_particle_info self (ev, h) = ((ev', h'), inr tt) →
  Forall2 (λ p p',
      if bool_decide (length (pid_thresholds_of G self p) ≠ 0%nat) then
        ∃ k v, (k, v) ∈ pid_thresholds_of G self p ∧ pid p' = Z.of_nat k
               ∧ is_Some (deref h (pid_scores p) !! k)
      else pid p' = pid p)
    (particles ev) (particles ev').
Proof.
  intros Hvalid Hrun. unfold properties_process, update_interactions in Hrun.
  cbn [fst snd] in Hrun.
  destruct (for_particles _ _ _) as [[ps1 h1] [e|[]]] eqn:Hloop; [done|].
  injection Hrun as <- <-. cbn [particles].
  apply (for_particles_done_inv _
           (λ hx p, (pid_scores p < length h)%nat)) in Hloop as [_ Hall]; [|done| |done].
  - eapply Forall2_impl; [exact Hall|].
    intros p p' (ha & hb & e1 & e2 & -> & -> & Hp & Hb).
    apply properties_body_pid in Hb. by rewrite deref_app in Hb.
  - intros p hx p' hx' _ Hb. by apply properties_body_frame in Hb as [_ ?].
Qed.

(** The body of the loop on a particle whose shape selects an empty
    mapping. *)
Lemma properties_body_primary_only self p h :
  length (pid_thresholds_of G self p) = 0%nat →
  properties_body G self (p, h) =
    match primary_threshold self with
    | None => ((p, h), inr tt)
    | Some t =>
        match deref h (primary_scores p) !! 1%nat with
        | None => ((p, h), inl IndexError)
        | Some s1 => ((set_is_primary (fgeb s1 t) p, h), inr tt)
        end
    end.
Proof.
  intros Hlen. unfold properties_body, mbind, M_bind.
  rewrite adjust_pid_spec_walk, bool_decide_eq_false_2 by (intros ?; done).
  apply adjust_primary_cases.
Qed.

(** X12.  With a primary threshold [t], on an event whose particles all have
    a shape that selects an empty mapping and at least two primary scores,
    [process] runs to its end without touching the store and sets
    [is_primary] of every particle to whether its second primary score is at
    or above [t], whatever the flag was, and nothing else.  Past such
    particles, a particle that has fewer than two primary scores makes
    [process] raise an [IndexError]. *)
Theorem properties_process_primary self t ps h (ias : list I) :
  primary_threshold self = Some t →
  Forall (λ p, length (pid_thresholds_of G self p) = 0%nat
               ∧ is_Some (deref h (primary_scores p) !! 1%nat)) ps →
  properties_process G update_particle_info self (mkEvent ps ias, h)
  = ((mkEvent (map (with_primary t h) ps)
        (map (update_particle_info (map (with_primary t h) ps) h) ias), h), inr tt)
  ∧ ∀ p ps2,
      length (pid_thresholds_of G self p) = 0%nat →
      deref h (primary_scores p) !! 1%nat = None →
      properties_process G update_particle_info self (mkEvent (ps ++ p :: ps2) ias, h)
      = ((mkEvent (map (with_primary t h) ps ++ p :: ps2) ias, h), inl IndexError).
Proof.
  intros Ht Hps.
  assert (for_particles (properties_body G self) ps h
          = ((map (with_primary t h) ps, h), inr tt)) as Hloop.
  { apply for_particles_map. eapply Forall_impl; [exact Hps|].
    intros p [Hlen [s1 Hs1]]. rewrite properties_body_primary_only, Ht by done.
    unfold with_primary. by rewrite Hs1. }
  split.
  - unfold properties_process, update_interactions. cbn [fst snd particles interactions].
    by rewrite Hloop.
  - intros p ps2 Hlen Hnone.
    unfold properties_process, update_interactions. cbn [fst snd particles interactions].
    erewrite for_particles_raise; [done|exact Hloop|].
    by rewrite properties_body_primary_only, Ht, Hnone.
Qed.
End properties_more.

(** ** The enforcer and the momentum reconstruction, in either order *)

Section commute.
Context {F : Type} `{Floating F}.
Context (G : Globals F).
Context {I : Type} (update_particle_info : list (Particle F) → Heap F → I → I).
Implicit Types (sem : ParticleSemanticsProcessor) (mom : MomentumProcessor).
Implicit Types (p : Particle F) (h : Heap F).

(** The enforcer does not look at the momentum. *)
Lemma semantics_body_set_momentum sem m p h :
  semantics_body G sem (set_momentum m p, h) =
    match semantics_body G sem (p, h) with
    | ((p', h'), r) => ((set_momentum m p', h'), r)
    end.
Proof.
  rewrite !semantics_body_cases. destruct (enforce_pid sem).
  - rewrite !reset_pid_scores_cases. cbn [semantic_type pid_scores set_momentum].
    destruct (SHP_TO_PID G !! semantic_type p) as [r|]; [|done].
    destruct (enforce_primary sem); [|done].
    rewrite !reset_primary_scores_cases.
    cbn [semantic_type primary_scores set_momentum set_pid_scores].
    destruct (SHP_TO_PRIMARY G !! semantic_type p) as [r'|]; [|done].
    cbn zeta. by case_bool_decide.
  - destruct (enforce_primary sem); [|done].
    rewrite !reset_primary_scores_cases. cbn [semantic_type primary_scores set_momentum].
    destruct (SHP_TO_PRIMARY G !! semantic_type p) as [r'|]; [|done].
    cbn zeta. by case_bool_decide.
Qed.

(** The momentum reconstruction does not look at the scores. *)
Lemma momentum_update_same_but_scores mom p p' :
  same_but_scores p p' →
  (momentum_ready G mom p ∨ pid p < 0 ↔ momentum_ready G mom p' ∨ pid p' < 0)
  ∧ same_but_scores (momentum_update G mom p) (momentum_update G mom p').
Proof.
  unfold same_but_scores. intros ->.
  unfold momentum_ready, momentum_update, with_momentum, resolve_ke.
  cbn [pid semantic_type is_contained csda_ke mcs_ke calo_ke start_dir
       set_pid_scores set_primary_scores].
  split; [done|]. case_bool_decide; [done|].
  by destruct (PID_MASSES G !! pid p).
Qed.

Lemma semantics_body_momentum_update sem mom p h p' h' :
  semantics_body G sem (p, h) = ((p', h'), inr tt) →
  semantics_body G sem (momentum_update G mom p, h)
  = ((momentum_update G mom p', h'), inr tt).
Proof.
  intros Hb.
  destruct (semantics_body_frame G sem p h p' h' _ Hb) as [Hsame _].
  assert (∀ m, semantics_body G sem (set_momentum m p, h)
               = ((set_momentum m p', h'), inr tt)) as Hset.
  { intros m. by rewrite semantics_body_set_momentum, Hb. }
  unfold same_but_scores in Hsame.
  unfold momentum_update, with_momentum, resolve_ke. rewrite Hsame.
  cbn [pid semantic_type is_contained csda_ke mcs_ke calo_ke start_dir
       set_pid_scores set_primary_scores].
  rewrite <- Hsame. case_bool_decide; [done|].
  destruct (PID_MASSES G !! pid p); [apply Hset|done].
Qed.

Lemma semantics_loop_momentum_update sem mom ps : ∀ h ps' h',
  for_particles (semantics_body G sem) ps h = ((ps', h'), inr tt) →
  for_particles (semantics_body G sem) (map (momentum_update G mom) ps) h
  = ((map (momentum_update G mom) ps', h'), inr tt).
Proof.
  induction ps as [|p ps IH]; intros h ps' h' Hrun; simpl in *.
  - by injection Hrun as <- <-.
  - destruct (semantics_body G sem (p, h)) as [[p1 h1] [e|[]]] eqn:Hb; [done|].
    destruct (for_particles _ ps h1) as [[ps1 h2] r] eqn:Hrest.
    injection Hrun as <- <- ->.
    by rewrite (semantics_body_momentum_update _ _ _ _ _ _ Hb), (IH _ _ _ Hrest).
Qed.

(** A loop of the momentum reconstruction that ran to its end. *)
Lemma momentum_loop_done mom ps h ps' h' :
  for_particles (momentum_body G mom) ps h = ((ps', h'), inr tt) →
  h' = h ∧ ps' = map (momentum_update G mom) ps
  ∧ Forall (λ p, momentum_ready G mom p ∨ pid p < 0) ps.
Proof.
  revert ps'. induction ps as [|p ps IH]; intros ps' Hrun; simpl in Hrun.
  - by injection Hrun as <- <-.
  - destruct (momentum_body G mom (p, h)) as [[p1 h1] [e|[]]] eqn:Hb; [done|].
    apply momentum_body_done in Hb as [-> Hb].
    destruct (for_particles _ ps h) as [[ps1 h2] r] eqn:Hrest.
    injection Hrun as <- <- ->. destruct (IH _ eq_refl) as (-> & -> & Hall).
    split; [done|]. cbn [map].
    destruct Hb as [[Hr ->]|[Hpid ->]].
    + split; [|by constructor; [left|]]. f_equal.
      unfold momentum_update. destruct Hr as (Hpid & _).
      by rewrite bool_decide_eq_false_2 by lia.
    + split; [|by constructor; [right|]]. f_equal.
      unfold momentum_update. by rewrite bool_decide_eq_true_2.
Qed.

(** X16.  The enforcer and the momentum reconstruction can be run in either
    order: when the enforcer and then the momentum reconstruction have run to
    their ends on an event, so do the momentum reconstruction and then the
    enforcer, and they leave the same particles and the same store. *)
Theorem semantics_momentum_commute sem mom (ev ev1 ev2 : Event F I) h h1 h2 :
  semantics_process G update_particle_info sem (ev, h) = ((ev1, h1), inr tt) →
  momentum_process G mom (ev1, h1) = ((ev2, h2), inr tt) →
  ∃ ev1' ev2',
    momentum_process G mom (ev, h) = ((ev1', h), inr tt) ∧
    semantics_process G update_particle_info sem (ev1', h) = ((ev2', h2), inr tt) ∧
    particles ev2' = particles ev2.
Proof.
  unfold semantics_process, momentum_process, update_interactions. cbn [fst snd].
  destruct (for_particles (semantics_body G sem) _ _) as [[ps1 hs] [e|[]]] eqn:Hsem;
    [done|].
  intros [= <- <-]. cbn [particles interactions].
  destruct (for_particles (momentum_body G mom) _ _) as [[ps2 hm] r] eqn:Hmom.
  intros [= <- <- ->].
  apply momentum_loop_done in Hmom as (-> & -> & Hready).
  assert (Forall2 same_but_scores (particles ev) ps1) as Hsame.
  { by apply (for_particles_frame _ same_but_scores) in Hsem as [? _];
      [|apply same_but_scores_refl|apply semantics_body_frame]. }
  assert (Forall (λ p, momentum_ready G mom p ∨ pid p < 0) (particles ev)) as Hready0.
  { eapply Forall2_Forall_l; [exact Hsame|].
    eapply Forall_impl; [exact Hready|]. intros p1 Hp1 p Hp.
    by apply (momentum_update_same_but_scores mom p p1 Hp). }
  eexists _, _. rewrite (momentum_loop_completes G mom _ _ Hready0).
  split; [done|]. cbn [particles interactions].
  rewrite (semantics_loop_momentum_update sem mom _ _ _ _ Hsem).
  split; done.
Qed.
End commute.

(** ** The further properties on concrete events *)

Section more_examples.
Import Sample.
Local Open Scope float_scope.

Lemma semantics_process_frame_witness :
  let ev := mkEvent [example_track] ([] : list unit) in
  let res := semantics_process float_globals no_update (mkSemantics true true)
               (ev, example_store) in
  (∀ (l : loc) a, example_store !! l = Some a → res.1.2 !! l = Some a) ∧
  Forall2 same_but_scores (particles ev) (particles res.1.1) ∧
  (∀ e, res.2 = inl e → interactions res.1.1 = interactions ev).
Proof.
  intros ev res.
  apply (semantics_process_frame float_globals no_update (mkSemantics true true)
           ev res.1.1 example_store res.1.2 res.2).
  vm_compute. reflexivity.
Defined.

Lemma semantics_process_flags_off_witness :
  let ev := mkEvent [example_track] ([] : list unit) in
  let res := semantics_process float_globals no_update (mkSemantics false true)
               (ev, example_store) in
  Forall2 (λ p p', pid_scores p' = pid_scores p) (particles ev) (particles res.1.1).
Proof.
  intros ev res.
  apply (proj2 (semantics_process_flags_off float_globals no_update)
           (mkSemantics false true) ev res.1.1 example_store res.1.2 res.2).
  - vm_compute. reflexivity.
  - reflexivity.
Defined.

Lemma semantics_unknown_shape_witness :
  let self := mkSemantics true true in
  let run := for_particles (semantics_body float_globals self) [example_track]
               example_store in
  semantics_process float_globals no_update self
    (mkEvent ([example_track] ++ low_energy_particle :: []) ([] : list unit), example_store)
  = ((mkEvent (run.1.1 ++ low_energy_particle :: []) [], run.1.2), inl KeyError).
Proof.
  intros self run.
  refine (proj1 (semantics_unknown_shape float_globals no_update self
                   low_energy_particle example_store [example_track]
                   run.1.1 run.1.2 [] [] _) _ _).
  - vm_compute. reflexivity.
  - reflexivity.
  - vm_compute. reflexivity.
Defined.

Lemma semantics_process_keeps_lengths_witness :
  let ev := mkEvent [example_track] ([] : list unit) in
  let res := semantics_process float_globals no_update (mkSemantics true true)
               (ev, example_store) in
  Forall2 (λ p p',
      length (deref res.1.2 (pid_scores p')) = length (deref example_store (pid_scores p)) ∧
      length (deref res.1.2 (primary_scores p'))
      = length (deref example_store (primary_scores p)))
    (particles ev) (particles res.1.1).
Proof.
  intros ev res.
  apply (semantics_process_keeps_lengths float_globals no_update (mkSemantics true true)
           ev res.1.1 example_store res.1.2).
  - repeat constructor.
  - vm_compute. reflexivity.
Defined.

Lemma momentum_process_frame_witness :
  let res := momentum_process float_globals (mkMomentum "best") (momentum_event, []) in
  res.1.2 = [] ∧ interactions res.1.1 = interactions momentum_event ∧
  Forall2 same_but_momentum (particles momentum_event) (particles res.1.1).
Proof.
  intros res.
  apply (momentum_process_frame float_globals (mkMomentum "best")
           momentum_event res.1.1 [] res.1.2 res.2).
  vm_compute. reflexivity.
Defined.

Lemma momentum_process_errors_witness :
  momentum_process float_globals (mkMomentum "best")
    (mkEvent ([contained_muon 45 50 (-1)] ++ set_pid 7 (contained_muon 45 50 (-1)) :: [])
       ([] : list unit), [])
  = ((mkEvent (map (momentum_update float_globals (mkMomentum "best"))
                 [contained_muon 45 50 (-1)]
               ++ set_pid 7 (contained_muon 45 50 (-1)) :: []) [], []),
     inl (ValueError bad_pid_msg)).
Proof.
  refine (proj1 (momentum_process_errors float_globals (mkMomentum "best")
                   (set_pid 7 (contained_muon 45 50 (-1))) []
                   [contained_muon 45 50 (-1)] [] [] _ _) _).
  - constructor; [|constructor]. left.
    repeat split; vm_compute; (discriminate || eauto).
  - vm_compute. discriminate.
  - vm_compute. reflexivity.
Defined.

Lemma momentum_process_twice_witness :
  let res := momentum_process float_globals (mkMomentum "best") (momentum_event, []) in
  momentum_process float_globals (mkMomentum "best") (res.1.1, res.1.2)
  = ((res.1.1, res.1.2), inr tt).
Proof.
  intros res.
  apply (momentum_process_twice float_globals (mkMomentum "best")
           momentum_event res.1.1 [] res.1.2).
  vm_compute. reflexivity.
Defined.

Lemma resolve_ke_sources_witness :
  resolve_ke float_globals (mkMomentum "csda") (shower_electron 45)
  = calo_ke (shower_electron 45).
Proof.
  apply (proj1 (resolve_ke_sources float_globals (mkMomentum "csda") (shower_electron 45))).
  vm_compute. discriminate.
Defined.

Lemma resolve_ke_negative_is_calo_witness :
  let p := contained_muon (-1) (-1) (-1) in
  resolve_ke float_globals (mkMomentum "best") p = calo_ke p
  ∧ fltb (calo_ke p) f0 = true.
Proof.
  intros p. apply resolve_ke_negative_is_calo. vm_compute. reflexivity.
Defined.

Lemma nan_scores_fail_coverage_witness :
  let p1 := set_pid_scores 2%nat example_track in
  let h1 := shower_like_store ++ [replicate 5 nan] in
  semantics_process float_globals (@no_update float) (mkSemantics true false)
    (mkEvent [example_track] [], shower_like_store)
  = ((mkEvent [p1] [], h1), inr tt)
  ∧ ∃ a, ∀ ias',
      properties_process float_globals (@no_update float) example_thresholds
        (mkEvent [p1] ias', h1)
      = ((mkEvent [p1] ias', h1 ++ [a]), inl (AssertionError coverage_msg)).
Proof.
  intros p1 h1.
  apply (nan_scores_fail_coverage float_globals no_update example_thresholds
           example_track shower_like_store [MUON_PID; PION_PID; PROT_PID; KAON_PID] []).
  - vm_compute. reflexivity.
  - vm_compute. reflexivity.
  - vm_compute. discriminate.
  - repeat constructor.
Defined.

Lemma properties_process_pid_witness :
  let ev := mkEvent [example_track] ([] : list unit) in
  let res := properties_process float_globals no_update example_thresholds
               (ev, example_store) in
  Forall2 (λ p p',
      if bool_decide (length (pid_thresholds_of float_globals example_thresholds p)
                      ≠ 0%nat) then
        ∃ k v, (k, v) ∈ pid_thresholds_of float_globals example_thresholds p
               ∧ pid p' = Z.of_nat k
               ∧ is_Some (deref example_store (pid_scores p) !! k)
      else pid p' = pid p)
    (particles ev) (particles res.1.1).
Proof.
  intros ev res.
  apply (properties_process_pid float_globals no_update example_thresholds
           ev res.1.1 example_store res.1.2).
  - repeat constructor.
  - vm_compute. reflexivity.
Defined.

(** The primary scores 0.2 and 0.8 make a primary under the threshold 0.5. *)
Lemma properties_process_primary_witness :
  properties_process float_globals (@no_update float) (primary_only 0.5)
    (mkEvent [example_track] [], example_store)
  = ((mkEvent [set_is_primary true example_track] [], example_store), inr tt).
Proof.
  apply (proj1 (properties_process_primary float_globals no_update (primary_only 0.5)
                  0.5 [example_track] example_store [] eq_refl
                  ltac:(repeat constructor; vm_compute; eauto))).
Defined.

Lemma semantics_momentum_commute_witness :
  let sem := mkSemantics true true in
  let mom := mkMomentum "best" in
  let ev := mkEvent [set_pid 2 example_track] ([] : list unit) in
  let res1 := semantics_process float_globals no_update sem (ev, example_store) in
  let res2 := momentum_process float_globals mom res1.1 in
  ∃ ev1' ev2',
    momentum_process float_globals mom (ev, example_store)
    = ((ev1', example_store), inr tt) ∧
    semantics_process float_globals no_update sem (ev1', example_store)
    = ((ev2', res2.1.2), inr tt) ∧
    particles ev2' = particles res2.1.1.
Proof.
  intros sem mom ev res1 res2.
  apply (semantics_momentum_commute float_globals no_update sem mom
           ev res1.1.1 res2.1.1 example_store res1.1.2 res2.1.2);
    vm_compute; reflexivity.
Defined.
End more_examples.

